(** * iksolver: the kinematic chain, the CCD solver and the orchestrator

    A shallow embedding of [src/IKChain.ts] (IKJoint, IKChain), of the
    CCD solver ([CCDIKSolver], [getIKJointRotationAngle],
    [clampIKJointRotationAngle]) and of the orchestrator ([IKSolver]),
    followed by the properties of the specification that they decide.

    - JavaScript numbers are IEEE 754 binary64 values: [spec_float] of the
      Standard Library with precision 53 and maximal exponent 1024.
    - three.js and [Math] are libraries the repository calls but does not
      contain: they are the interface [ThreeJS], and every property is
      proved for every implementation of it.  [Ref] is one implementation
      in binary64, used to run the code on concrete chains; [Mat] is a
      second one, with the world matrices of three.js.
    - objects that the code mutates in place are threaded as explicit state:
      the joints of the chain and the target point.  Where a property
      depends on which object is written, the objects are the cells of a
      store and the code runs on references: the vectors of the solver
      ([CCDIKSolver_]) and the URDF joints of write-back
      ([_updateURDFRobot_]). *)

From Stdlib Require Import ZArith Bool String Lia.
From Stdlib Require Import Floats.SpecFloat.
From stdpp Require Import base option list strings relations.
From Equations Require Import Equations.

Local Open Scope Z_scope.

(** ** JavaScript numbers *)

Module Num.

Definition number : Type := spec_float.

Definition prec : Z := 53.
Definition emax : Z := 1024.

Definition NaN : number := S754_nan.
Definition of_Z (z : Z) : number := binary_normalize prec emax z 0 false.

Definition add : number -> number -> number := SFadd prec emax.
Definition sub : number -> number -> number := SFsub prec emax.
Definition mul : number -> number -> number := SFmul prec emax.
Definition div : number -> number -> number := SFdiv prec emax.
Definition sqrt : number -> number := SFsqrt prec emax.
Definition neg : number -> number := SFopp.
Definition abs : number -> number := SFabs.

(** [a < b], [a > b], [a <= b]: false as soon as one side is NaN. *)
Definition lt (a b : number) : bool := SFltb a b.
Definition gt (a b : number) : bool := SFltb b a.
Definition le (a b : number) : bool := SFleb a b.
(** [a === b] on numbers. *)
Definition eq (a b : number) : bool := SFeqb a b.

Definition is_nan (a : number) : bool :=
  match a with S754_nan => true | _ => false end.

Definition zero : number := S754_zero false.
Definition one : number := of_Z 1.
Definition two : number := of_Z 2.

(** [Number.EPSILON], 2^-52. *)
Definition EPSILON : number := S754_finite false 4503599627370496 (-104).

End Num.

Abbreviation number := Num.number.

(** ** Truthiness (ToBoolean) *)

Class Truthy (A : Type) := truthy : A -> bool.

(** A number is falsy when it is +0, -0 or NaN. *)
#[export] Instance number_truthy : Truthy number := fun a =>
  match a with
  | S754_zero _ | S754_nan => false
  | _ => true
  end.

#[export] Instance bool_truthy : Truthy bool := fun b => b.

(** [undefined] is falsy; a present value counts by its own truthiness. *)
#[export] Instance optional_truthy {A} `{Truthy A} : Truthy (option A) := fun o =>
  match o with
  | Some a => truthy a
  | None => false
  end.

(** [a || b] where [a] may be [undefined] and is an object otherwise. *)
Definition or_else {A} `{Truthy A} (a : option A) (b : A) : A :=
  match a with
  | Some v => if truthy v then v else b
  | None => b
  end.

(** ** three.js values *)

Record Vector3 := mkVector3 { vx : number; vy : number; vz : number }.

Record Quaternion := mkQuaternion {
  qx : number; qy : number; qz : number; qw : number }.

Record Euler := mkEuler { ex : number; ey : number; ez : number }.

(** Objects are always truthy. *)
#[export] Instance Vector3_truthy : Truthy Vector3 := fun _ => true.

(** [new Vector3()] and [new Quaternion()]. *)
Definition Vector3_new : Vector3 := mkVector3 Num.zero Num.zero Num.zero.
Definition Quaternion_new : Quaternion :=
  mkQuaternion Num.zero Num.zero Num.zero Num.one.

(** [v.clone()]: a fresh object with the same coordinates.  Operations that
    work in place on the clone leave the original as it is. *)
Definition clone (v : Vector3) : Vector3 := mkVector3 (vx v) (vy v) (vz v).

(** The operations of three.js and of [Math] that the repository calls.
    The world-space conversions of a joint read the local transforms of
    the joint and of its ancestors, which three.js recomposes on each
    call ([updateWorldMatrix (true, false)]); the joints of a chain are each
    other's ancestors in list order, so the conversions take the list of
    joints and the index of the receiver. *)
Class ThreeJS (Joint : Type) := {
  (* Object3D *)
  worldToLocal : list Joint -> nat -> Vector3 -> Vector3;
  getWorldPosition : list Joint -> nat -> Vector3;
  (* Vector3 *)
  normalize : Vector3 -> Vector3;
  length3 : Vector3 -> number;
  applyQuaternion : Vector3 -> Quaternion -> Vector3;
  (* Quaternion *)
  setFromUnitVectors : Vector3 -> Vector3 -> Quaternion;
  multiply : Quaternion -> Quaternion -> Quaternion;
  invert : Quaternion -> Quaternion;
  setFromAxisAngle : Vector3 -> number -> Quaternion;
  (* Euler and Quaternion views of one orientation *)
  setFromEuler : Euler -> Quaternion;
  setFromQuaternion : Quaternion -> Euler;
  (* Math *)
  Math_asin : number -> number
}.

(** ** model.ts *)

Inductive AxisName := axis_x | axis_y | axis_z.

(** [maxIterations] is a count: an integer, compared with the iteration
    counter of the solver, which stays in the range where the integers of
    JavaScript are exact. *)
Record IKConfig := mkIKConfig {
  tolerance : number;
  maxIterations : Z;
  updateURDFRobot : bool }.

(** [Partial<IKConfig>]: each field may be left out; a field that is present
    holds a value of its type. *)
Record PartialIKConfig := mkPartialIKConfig {
  p_tolerance : option number;
  p_maxIterations : option Z;
  p_updateURDFRobot : option bool }.

Record JointLimit := mkJointLimit { lower : number; upper : number }.

#[export] Instance JointLimit_truthy : Truthy JointLimit := fun _ => true.

(** ** IKChain.ts: joints *)

(** What the code reads and writes of a [URDFJoint] of urdf-loader. *)
Record URDFJoint := mkURDFJoint {
  u_position : Vector3;
  u_rotation : Euler;
  u_quaternion : Quaternion;
  u_axis : option Vector3;
  u_limit : option JointLimit;
  jointType : string }.

#[export] Instance URDFJoint_truthy : Truthy URDFJoint := fun _ => true.

Definition DEFAULT_AXIS : Vector3 :=
  mkVector3 (Num.of_Z 0) (Num.of_Z 1) (Num.of_Z 0).

(** An [IKJoint]: the optional URDF joint it was made from and its local
    transform.  Orientation is the [quaternion]; the Euler [rotation] of
    three.js is a view of it and is not read after construction. *)
Record IKJoint := mkIKJoint {
  urdfJoint : option URDFJoint;
  position : Vector3;
  quaternion : Quaternion }.

Definition set_quaternion (q : Quaternion) (j : IKJoint) : IKJoint :=
  mkIKJoint (urdfJoint j) (position j) q.

Section Joint.
Context `{ThreeJS IKJoint}.

(** [new IKJoint(urdfJoint?)]: [position.copy] and [rotation.copy] when a
    URDF joint is given, the defaults of [Object3D] otherwise. *)
Definition IKJoint_new (u : option URDFJoint) : IKJoint :=
  match u with
  | Some uj => mkIKJoint (Some uj) (u_position uj) (setFromEuler (u_rotation uj))
  | None => mkIKJoint None Vector3_new Quaternion_new
  end.

End Joint.

Definition isRootJoint (j : IKJoint) : bool := negb (truthy (urdfJoint j)).

Definition axis (j : IKJoint) : Vector3 :=
  or_else (urdfJoint j ≫= u_axis) DEFAULT_AXIS.

Definition component (a : AxisName) (v : Vector3) : number :=
  match a with axis_x => vx v | axis_y => vy v | axis_z => vz v end.

Definition qcomponent (a : AxisName) (q : Quaternion) : number :=
  match a with axis_x => qx q | axis_y => qy q | axis_z => qz q end.

(** [Object.entries(axis)]: the coordinates in the order x, y, z. *)
Definition entries (v : Vector3) : list (AxisName * number) :=
  [(axis_x, vx v); (axis_y, vy v); (axis_z, vz v)].

(** The key of the first truthy coordinate; [None] is the empty string. *)
Definition axisName (j : IKJoint) : option AxisName :=
  fst <$> List.find (fun kv => truthy (snd kv)) (entries (axis j)).

Definition limit (j : IKJoint) : JointLimit :=
  or_else (urdfJoint j ≫= u_limit) (mkJointLimit (Num.of_Z 0) (Num.of_Z 0)).

Definition hasJointType (t : string) (j : IKJoint) : bool :=
  match urdfJoint j with
  | Some u => String.eqb (jointType u) t
  | None => false
  end.

Definition isHinge (j : IKJoint) : bool := hasJointType "revolute" j.
Definition isFixed (j : IKJoint) : bool := hasJointType "fixed" j.

(** ** Exceptions *)

Inductive Error := TypeError.

Inductive result (A : Type) :=
| Ok (a : A)
| Throw (e : Error).
Arguments Ok {A} a.
Arguments Throw {A} e.

#[export] Instance result_bind : MBind result := fun A B k r =>
  match r with
  | Ok a => k a
  | Throw e => Throw e
  end.

Definition inspect {A} (a : A) : {b : A | a = b} := exist _ a eq_refl.

(** ** IKChain.ts: building the chain *)

(** A node of the robot description: a URDF joint (with its data) or any
    other object (link, visual), and its children in order. *)
#[warnings="-register-all"]
Inductive Object3D :=
| Node (urdf : option URDFJoint) (children : list Object3D).

Definition node_urdf (o : Object3D) : option URDFJoint :=
  match o with Node u _ => u end.

Definition children (o : Object3D) : list Object3D :=
  match o with Node _ cs => cs end.

#[export] Instance Object3D_truthy : Truthy Object3D := fun _ => true.

(** [(child as URDFJoint).isURDFJoint]: [true] on a URDF joint, [undefined]
    on any other object. *)
Definition isURDFJoint (o : Object3D) : bool := truthy (node_urdf o).

Fixpoint size (o : Object3D) : nat :=
  match o with
  | Node _ cs => S (list_sum (List.map size cs))
  end.

(** A description branches when some object carries more than one URDF
    joint. *)
Fixpoint branches (o : Object3D) : bool :=
  match o with
  | Node _ cs =>
      (1 <? length (List.filter isURDFJoint cs))%nat || List.existsb branches cs
  end.

(** Every URDF joint of the description carries at least one child (in a
    URDF, its child link). *)
Fixpoint linked (o : Object3D) : bool :=
  match o with
  | Node u cs =>
      (negb (truthy u) || negb (length cs =? 0)%nat) && List.forallb linked cs
  end.

(** [parent.children[0].children.find(isURDFJoint)]; reading [children] of
    the missing first child throws. *)
Definition _nextURDFJoint (parent : Object3D) : result (option Object3D) :=
  match children parent with
  | [] => Throw TypeError
  | first :: _ => Ok (List.find isURDFJoint (children first))
  end.

(** [children.find(child => child.isURDFJoint && _nextURDFJoint(child))]:
    the callback runs on the children in order and may throw. *)
Fixpoint find_base (cs : list Object3D) : result (option Object3D) :=
  match cs with
  | [] => Ok None
  | child :: rest =>
      if isURDFJoint child then
        next ← _nextURDFJoint child;
        if truthy next then Ok (Some child) else find_base rest
      else find_base rest
  end.

Definition _baseURDFJoint (parent : Object3D) : result (option Object3D) :=
  find_base (children parent).

(** An [IKChain] once its joint list is read: the joints from the root
    joint down, and the end effector as the index of its joint in the list
    ([None] before the chain is built). *)
Record IKChain := mkIKChain {
  ikJoints : list IKJoint;
  endEffector : option nat }.

Section Build.
Context `{ThreeJS IKJoint}.

(** [_traverseURDFJoints]: the joints made from [urdfJoint] and from the
    joints chained below it, the last of which is the end effector. *)
Equations? _traverseURDFJoints (urdfJoint : Object3D) : result (list IKJoint)
  by wf (size urdfJoint) lt :=
  _traverseURDFJoints urdfJoint with inspect (_nextURDFJoint urdfJoint) => {
    | exist _ (Throw e) _ := Throw e;
    | exist _ (Ok None) _ := Ok [IKJoint_new (node_urdf urdfJoint)];
    | exist _ (Ok (Some nextUrdfJoint)) _ :=
        rest ← _traverseURDFJoints nextUrdfJoint;
        Ok (IKJoint_new (node_urdf urdfJoint) :: rest) }.
Proof.
  match goal with
  | Hn : _nextURDFJoint ?parent = _ |- _ =>
      rename Hn into Hnext; destruct parent as [u [|[u0 gcs] cs]]; [discriminate|]
  end.
  injection Hnext as Hfind. simpl in *. clear -Hfind.
  assert (size nextUrdfJoint <= list_sum (List.map size gcs))%nat; [|lia].
  induction gcs as [|c gcs IH]; simpl in *; [discriminate|].
  destruct (isURDFJoint c).
  - injection Hfind as ->. lia.
  - specialize (IH Hfind). lia.
Qed.

(** [new IKChain()] *)
Definition IKChain_new : IKChain := mkIKChain [IKJoint_new None] None.

(** [createFromURDF] on a new chain.  Without a base joint the traversal
    starts from [undefined], and [_nextURDFJoint(undefined)] throws. *)
Definition createFromURDF (robot : Object3D) : result IKChain :=
  base ← _baseURDFJoint robot;
  match base with
  | None => Throw TypeError
  | Some urdfJoint =>
      made ← _traverseURDFJoints urdfJoint;
      Ok (mkIKChain (IKJoint_new None :: made) (Some (length made)))
  end.

End Build.

(** ** The CCD solver *)

(** The objects that outlive a call of the solver: the joints of the chain
    and the target point. *)
Record Scene := mkScene {
  joints : list IKJoint;
  targetPos : Vector3 }.

Definition set_joints (js : list IKJoint) (st : Scene) : Scene :=
  mkScene js (targetPos st).

(** What a pass keeps: the target, the number of joints, and every fixed
    joint. *)
Definition keeps (st st' : Scene) : Prop :=
  targetPos st' = targetPos st /\
  length (joints st') = length (joints st) /\
  forall i j, joints st !! i = Some j -> isFixed j = true -> joints st' !! i = Some j.

Definition clampIKJointRotationAngle
    (ikJointRotationAngle : number) (limit : JointLimit) : number * bool :=
  if Num.lt ikJointRotationAngle (lower limit) then (lower limit, true)
  else if Num.gt ikJointRotationAngle (upper limit) then (upper limit, true)
  else (ikJointRotationAngle, false).

(** [ikJoint.quaternion[axisName] / axis[axisName]]; with the empty axis
    name both sides are [undefined] and the quotient is NaN. *)
Definition angleRatio (ikJoint : IKJoint) : number :=
  match axisName ikJoint with
  | Some a => Num.div (qcomponent a (quaternion ikJoint)) (component a (axis ikJoint))
  | None => Num.NaN
  end.

Section Solver.
Context `{ThreeJS IKJoint}.

Definition getIKJointRotationAngle (ikJoint : IKJoint) : number :=
  Num.mul (Math_asin (angleRatio ikJoint)) Num.two.

(** What ECMAScript fixes of [Math.asin]: NaN for NaN and outside
    [[-1, 1]]. *)
Definition asin_domain : Prop :=
  forall x : number,
    Num.is_nan x = true \/ Num.gt x Num.one = true \/ Num.lt x (Num.neg Num.one) = true ->
    Math_asin x = Num.NaN.

Definition calcEndEffectorTargetDistance (e : nat) (st : Scene) : number :=
  length3 (worldToLocal (joints st) e (clone (targetPos st))).

(** Lines 145-149: turn the joint so that the end effector points at the
    target. *)
Definition aimAtTarget (e i : nat) (st : Scene) (ikJoint : IKJoint) : IKJoint :=
  let endEffectorWorldPos := getWorldPosition (joints st) e in
  let directionToEndEffector :=
    normalize (worldToLocal (joints st) i (clone endEffectorWorldPos)) in
  let directionToTarget :=
    normalize (worldToLocal (joints st) i (clone (targetPos st))) in
  let jointToTargetQt := setFromUnitVectors directionToEndEffector directionToTarget in
  set_quaternion (multiply (quaternion ikJoint) jointToTargetQt) ikJoint.

(** Lines 151-156: bring the axis of a hinge or root joint back onto
    itself. *)
Definition correctAxis (ikJoint : IKJoint) : IKJoint :=
  if isHinge ikJoint || isRootJoint ikJoint then
    let inverseQt := invert (quaternion ikJoint) in
    let jointAxisInverseQt := applyQuaternion (axis ikJoint) inverseQt in
    let jointToTargetQt := setFromUnitVectors (axis ikJoint) jointAxisInverseQt in
    set_quaternion (multiply (quaternion ikJoint) jointToTargetQt) ikJoint
  else ikJoint.

(** Lines 159-164: clamp the rotation to the limit. *)
Definition clampToLimit (ikJoint : IKJoint) : IKJoint :=
  if truthy (limit ikJoint) then
    let ikJointRotationAngle := getIKJointRotationAngle ikJoint in
    let '(clampedRotationAngle, isClamped) :=
      clampIKJointRotationAngle ikJointRotationAngle (limit ikJoint) in
    if isClamped then
      set_quaternion (setFromAxisAngle (axis ikJoint) clampedRotationAngle) ikJoint
    else ikJoint
  else ikJoint.

(** The body of the [for] loop at index [i]. *)
Definition adjustJoint (e i : nat) (st : Scene) : result Scene :=
  match joints st !! i with
  | None => Throw TypeError
  | Some ikJoint =>
      if negb (isFixed ikJoint) then
        let ikJoint := clampToLimit (correctAxis (aimAtTarget e i st ikJoint)) in
        Ok (set_joints (<[i := ikJoint]> (joints st)) st)
      else Ok st
  end.

(** [for (let i = n - 1; i >= 0; i--)] *)
Fixpoint forJoints (e n : nat) (st : Scene) : result Scene :=
  match n with
  | O => Ok st
  | S i => st' ← adjustJoint e i st; forJoints e i st'
  end.

(** One pass of the [while] body over the joints, from the one before
    the last down to the first. *)
Definition sweep (e : nat) (st : Scene) : result Scene :=
  forJoints e (length (joints st) - 1) st.

(** [n] passes in a row. *)
Fixpoint sweeps (e : nat) (n : nat) (st : Scene) : result Scene :=
  match n with
  | O => Ok st
  | S n' => st' ← sweep e st; sweeps e n' st'
  end.

(** The [while] loop; returns the scene and the final value of
    [iteration], the number of passes made. *)
Equations? whileLoop (e : nat) (config : IKConfig) (st : Scene)
    (endEffectorTargetDistance : number) (iteration : Z) : result (Scene * Z)
  by wf (Z.to_nat (maxIterations config + 1 - iteration)) lt :=
  whileLoop e config st endEffectorTargetDistance iteration
    with inspect (Num.gt endEffectorTargetDistance (tolerance config)
                  && (iteration <=? maxIterations config)) => {
    | exist _ false _ := Ok (st, iteration);
    | exist _ true _ with sweep e st => {
        | Throw err := Throw err;
        | Ok st' :=
            whileLoop e config st' (calcEndEffectorTargetDistance e st') (iteration + 1) } }.
Proof.
  match goal with Hc : _ && _ = true |- _ => apply andb_prop in Hc as [_ Hle] end.
  lia.
Qed.

(** [CCDIKSolver]; reading the end effector of a chain that was never
    built throws. *)
Definition CCDIKSolver (ikChain : IKChain) (targetPos : Vector3) (config : IKConfig)
    : result (Scene * Z) :=
  match endEffector ikChain with
  | None => Throw TypeError
  | Some e =>
      let st := mkScene (ikJoints ikChain) targetPos in
      whileLoop e config st (calcEndEffectorTargetDistance e st) 0
  end.

End Solver.

(** ** The solver over the store of vectors

    A [Vector3] of three.js is an object: [worldToLocal], [normalize] and
    [applyQuaternion] overwrite the vector they are called with,
    [getWorldPosition] and [copy] the one they write to, and each returns
    that same object; [clone] and [new Vector3()] make a new one.  Here
    the vectors are the cells of a store, named by reference, and the
    solver is run on the reference of the target point that its caller
    passes, [this.target.position]. *)

Record Heap := mkHeap {
  (** the vector behind a reference *)
  cell : nat -> Vector3;
  (** the first reference not in use *)
  next : nat }.

(** A computation on the store, which may throw. *)
Definition M (A : Type) : Type := Heap -> result (A * Heap).

#[export] Instance M_ret : MRet M := fun A x h => Ok (x, h).

#[export] Instance M_bind : MBind M := fun A B k m h =>
  match m h with
  | Ok (x, h') => k x h'
  | Throw err => Throw err
  end.

Definition throw {A} (err : Error) : M A := fun _ => Throw err.

(** A new object holding [v]; returns its reference. *)
Definition alloc (v : Vector3) : M nat := fun h =>
  Ok (next h, mkHeap (fun r => if Nat.eqb r (next h) then v else cell h r) (S (next h))).

Definition get (r : nat) : M Vector3 := fun h => Ok (cell h r, h).

(** Overwrites the object at [r]; returns [r], as the methods of three.js
    return [this]. *)
Definition put (r : nat) (v : Vector3) : M nat := fun h =>
  Ok (r, mkHeap (fun x => if Nat.eqb x r then v else cell h x) (next h)).

(** What a computation leaves alone: every object below [n0]. *)
Definition frame (n0 : nat) (h h' : Heap) : Prop :=
  (next h <= next h')%nat /\ forall r : nat, (r < n0)%nat -> cell h' r = cell h r.

Section StoreSolver.
Context `{ThreeJS IKJoint}.

(** [new Vector3()] *)
Definition Vector3_new_ : M nat := alloc Vector3_new.

(** [v.clone()] *)
Definition clone_ (v : nat) : M nat := x ← get v; alloc (clone x).

(** [object.worldToLocal(v)] *)
Definition worldToLocal_ (js : list IKJoint) (i : nat) (v : nat) : M nat :=
  x ← get v; put v (worldToLocal js i x).

(** [object.getWorldPosition(v)] *)
Definition getWorldPosition_ (js : list IKJoint) (i : nat) (v : nat) : M nat :=
  put v (getWorldPosition js i).

(** [v.normalize()] *)
Definition normalize_ (v : nat) : M nat := x ← get v; put v (normalize x).

(** [v.length()] *)
Definition length_ (v : nat) : M number := x ← get v; mret (length3 x).

(** [v.copy(a)] *)
Definition copy_ (v : nat) (a : Vector3) : M nat := put v a.

(** [v.applyQuaternion(q)] *)
Definition applyQuaternion_ (v : nat) (q : Quaternion) : M nat :=
  x ← get v; put v (applyQuaternion x q).

(** [endEffector.worldToLocal(targetPos.clone()).length()] *)
Definition calcEndEffectorTargetDistance_
    (e : nat) (js : list IKJoint) (targetPos : nat) : M number :=
  c ← clone_ targetPos;
  l ← worldToLocal_ js e c;
  length_ l.

(** Lines 145-149. *)
Definition aimAtTarget_ (e i : nat) (js : list IKJoint)
    (targetPos endEffectorWorldPos : nat) (ikJoint : IKJoint) : M IKJoint :=
  _ ← getWorldPosition_ js e endEffectorWorldPos;
  c ← clone_ endEffectorWorldPos;
  l ← worldToLocal_ js i c;
  directionToEndEffector ← normalize_ l;
  c ← clone_ targetPos;
  l ← worldToLocal_ js i c;
  directionToTarget ← normalize_ l;
  vFrom ← get directionToEndEffector;
  vTo ← get directionToTarget;
  let jointToTargetQt := setFromUnitVectors vFrom vTo in
  mret (set_quaternion (multiply (quaternion ikJoint) jointToTargetQt) ikJoint).

(** Lines 151-156. *)
Definition correctAxis_ (jointAxisInverseQt : nat) (ikJoint : IKJoint) : M IKJoint :=
  if isHinge ikJoint || isRootJoint ikJoint then
    let inverseQt := invert (quaternion ikJoint) in
    _ ← copy_ jointAxisInverseQt (axis ikJoint);
    _ ← applyQuaternion_ jointAxisInverseQt inverseQt;
    vTo ← get jointAxisInverseQt;
    let jointToTargetQt := setFromUnitVectors (axis ikJoint) vTo in
    mret (set_quaternion (multiply (quaternion ikJoint) jointToTargetQt) ikJoint)
  else mret ikJoint.

(** The body of the [for] loop at index [i]. *)
Definition adjustJoint_ (e i : nat) (targetPos endEffectorWorldPos jointAxisInverseQt : nat)
    (js : list IKJoint) : M (list IKJoint) :=
  match js !! i with
  | None => throw TypeError
  | Some ikJoint =>
      if negb (isFixed ikJoint) then
        ikJoint ← aimAtTarget_ e i js targetPos endEffectorWorldPos ikJoint;
        ikJoint ← correctAxis_ jointAxisInverseQt ikJoint;
        mret (<[i := clampToLimit ikJoint]> js)
      else mret js
  end.

Fixpoint forJoints_ (e n : nat) (targetPos endEffectorWorldPos jointAxisInverseQt : nat)
    (js : list IKJoint) : M (list IKJoint) :=
  match n with
  | O => mret js
  | S i =>
      js' ← adjustJoint_ e i targetPos endEffectorWorldPos jointAxisInverseQt js;
      forJoints_ e i targetPos endEffectorWorldPos jointAxisInverseQt js'
  end.

(** One pass, and the distance after it. *)
Definition sweep_ (e : nat) (targetPos endEffectorWorldPos jointAxisInverseQt : nat)
    (js : list IKJoint) : M (list IKJoint * number) :=
  js' ← forJoints_ e (length js - 1) targetPos endEffectorWorldPos jointAxisInverseQt js;
  d ← calcEndEffectorTargetDistance_ e js' targetPos;
  mret (js', d).

Equations? whileLoop_ (e : nat) (config : IKConfig)
    (targetPos endEffectorWorldPos jointAxisInverseQt : nat)
    (js : list IKJoint) (endEffectorTargetDistance : number) (iteration : Z) (h : Heap)
    : result (list IKJoint * Z * Heap)
  by wf (Z.to_nat (maxIterations config + 1 - iteration)) lt :=
  whileLoop_ e config targetPos endEffectorWorldPos jointAxisInverseQt js
      endEffectorTargetDistance iteration h
    with inspect (Num.gt endEffectorTargetDistance (tolerance config)
                  && (iteration <=? maxIterations config)) => {
    | exist _ false _ := Ok (js, iteration, h);
    | exist _ true _
        with sweep_ e targetPos endEffectorWorldPos jointAxisInverseQt js h => {
        | Throw err := Throw err;
        | Ok (js', d, h') :=
            whileLoop_ e config targetPos endEffectorWorldPos jointAxisInverseQt js'
              d (iteration + 1) h' } }.
Proof.
  match goal with Hc : _ && _ = true |- _ => apply andb_prop in Hc as [_ Hle] end.
  lia.
Qed.

(** [CCDIKSolver], called with the reference of the target point. *)
Definition CCDIKSolver_ (ikChain : IKChain) (targetPos : nat) (config : IKConfig)
    : M (list IKJoint * Z) :=
  match endEffector ikChain with
  | None => throw TypeError
  | Some e =>
      endEffectorTargetDistance ←
        calcEndEffectorTargetDistance_ e (ikJoints ikChain) targetPos;
      endEffectorWorldPos ← Vector3_new_;
      jointAxisInverseQt ← Vector3_new_;
      whileLoop_ e config targetPos endEffectorWorldPos jointAxisInverseQt
        (ikJoints ikChain) endEffectorTargetDistance 0
  end.

End StoreSolver.

(** Runs the operations on the store. *)
Ltac run :=
  cbv [calcEndEffectorTargetDistance_ aimAtTarget_ correctAxis_ clone_ worldToLocal_
       getWorldPosition_ normalize_ length_ copy_ applyQuaternion_ Vector3_new_
       alloc get put mbind M_bind mret M_ret];
  cbn [cell next].

(** Decides the comparisons of references that a run leaves behind. *)
Ltac refs :=
  repeat match goal with
  | |- context [Nat.eqb ?a ?a] => rewrite (Nat.eqb_refl a)
  | |- context [Nat.eqb ?a ?b] => rewrite (proj2 (Nat.eqb_neq a b)) by lia
  end.

(** ** The orchestrator *)

Record IKSolver := mkIKSolver {
  ikChain : option IKChain;
  (** the position of the target object *)
  target : option Vector3;
  _config : IKConfig }.

(** [{ tolerance: 0.01, maxIterations: 10, updateURDFRobot: false, ...config }] *)
Definition defaultConfig : IKConfig :=
  mkIKConfig (Num.div (Num.of_Z 1) (Num.of_Z 100)) 10 false.

Definition spread (defaults : IKConfig) (config : PartialIKConfig) : IKConfig :=
  mkIKConfig
    (default (tolerance defaults) (p_tolerance config))
    (default (maxIterations defaults) (p_maxIterations config))
    (default (updateURDFRobot defaults) (p_updateURDFRobot config)).

Definition IKSolver_new (config : PartialIKConfig) : IKSolver :=
  mkIKSolver None None (spread defaultConfig config).

Section Orchestrator.
Context `{ThreeJS IKJoint}.

(** [ikJoint.urdfJoint?.quaternion.copy(ikJoint.quaternion)], on a joint
    that holds its URDF joint by value: what the joint shows of its URDF
    joint after its own write.  The code holds the URDF joint by reference;
    the two agree when no other joint of the chain was made from the same
    URDF joint, see [_updateURDFRobot_] below for the write through
    references. *)
Definition writeBack (ikJoint : IKJoint) : IKJoint :=
  match urdfJoint ikJoint with
  | Some u =>
      let u' := mkURDFJoint (u_position u)
                  (setFromQuaternion (quaternion ikJoint)) (quaternion ikJoint)
                  (u_axis u) (u_limit u) (jointType u) in
      mkIKJoint (Some u') (position ikJoint) (quaternion ikJoint)
  | None => ikJoint
  end.

Definition _updateURDFRobot (c : IKChain) : IKChain :=
  mkIKChain (writeBack <$> ikJoints c) (endEffector c).

Definition solve (s : IKSolver) : result IKSolver :=
  match ikChain s, target s with
  | Some c, Some t =>
      '(st, _) ← CCDIKSolver c t (_config s);
      let c' := mkIKChain (joints st) (endEffector c) in
      let c' := if updateURDFRobot (_config s) then _updateURDFRobot c' else c' in
      Ok (mkIKSolver (Some c') (Some (targetPos st)) (_config s))
  | _, _ => Ok s
  end.

End Orchestrator.

(** ** Write-back through shared URDF joints

    An [IKJoint] holds the URDF joint it was made from by reference
    (IKChain.ts, line 23), and write-back writes through that reference
    (line 172): two joints of a chain made from one URDF joint, as after
    [createFromURDF] was called twice with one robot, write to one object.
    Here the URDF joints of the robot are the entries of a list, named by
    their index, and each joint of the chain comes with the index of the
    URDF joint it was made from, the root joint with none. *)

Section SharedRobot.
Context `{ThreeJS IKJoint}.

(** [urdfJoint.quaternion.copy(q)]; the Euler angles of an [Object3D]
    follow its quaternion. *)
Definition copyQuaternion (q : Quaternion) (u : URDFJoint) : URDFJoint :=
  mkURDFJoint (u_position u) (setFromQuaternion q) q (u_axis u) (u_limit u) (jointType u).

(** [ikJoint.urdfJoint?.quaternion.copy(ikJoint.quaternion)] *)
Definition writeThrough (robot : list URDFJoint) (ikJoint : option nat * IKJoint)
    : list URDFJoint :=
  match ikJoint.1 with
  | Some k => alter (copyQuaternion (quaternion ikJoint.2)) k robot
  | None => robot
  end.

(** [for (const ikJoint of this.ikChain.ikJoints)] *)
Definition _updateURDFRobot_ (refs : list (option nat)) (js : list IKJoint)
    (robot : list URDFJoint) : list URDFJoint :=
  fold_left writeThrough (zip refs js) robot.

(** Every joint, held by value, shows the URDF joint it refers to as the
    robot has it. *)
Definition shows (robot : list URDFJoint) (refs : list (option nat)) (js : list IKJoint)
    : Prop :=
  Forall2 (fun r j => urdfJoint j = r ≫= (robot !!.)) refs js.

(** No two joints were made from one URDF joint. *)
Definition unshared (refs : list (option nat)) : Prop :=
  forall (i i' k : nat), refs !! i = Some (Some k) -> refs !! i' = Some (Some k) -> i = i'.

End SharedRobot.

(** ** A binary64 implementation of the interface

    The formulas are those of three.js; [Math.sin], [Math.cos],
    [Math.asin] and [Math.atan2], which ECMAScript leaves to the
    implementation to approximate, are power series.  The world transform
    of a joint is kept as a position and a quaternion, composed from the
    root of the chain down. *)

Module Ref.

Declare Scope num_scope.
Delimit Scope num_scope with num.
Infix "+" := Num.add : num_scope.
Infix "-" := Num.sub : num_scope.
Infix "*" := Num.mul : num_scope.
Infix "/" := Num.div : num_scope.
Notation "- x" := (Num.neg x) : num_scope.
Local Open Scope num_scope.

Definition PI_2 : number := S754_finite false 7074237752028440 (-52).
Definition PI : number := S754_finite false 7074237752028440 (-51).
Definition half : number := S754_finite false 4503599627370496 (-53).

(** [1 - x2/(k(k+1)) * (1 - x2/((k+2)(k+3)) * ...)], [n] factors deep. *)
Fixpoint alternating (x2 : number) (k : Z) (n : nat) : number :=
  match n with
  | O => Num.one
  | S n' =>
      Num.one - x2 / Num.of_Z (k * (k + 1)) * alternating x2 (k + 2) n'
  end.

Definition is_finite (x : number) : bool :=
  match x with S754_zero _ | S754_finite _ _ _ => true | _ => false end.

Definition sin (x : number) : number :=
  if is_finite x then x * alternating (x * x) 2 16 else Num.NaN.

Definition cos (x : number) : number :=
  if is_finite x then alternating (x * x) 1 16 else Num.NaN.

(** [1 + x2*k*k/((k+1)(k+2)) * (1 + ...)], [n] factors deep. *)
Fixpoint arcsine_series (x2 : number) (k : Z) (n : nat) : number :=
  match n with
  | O => Num.one
  | S n' =>
      Num.one + x2 * Num.of_Z (k * k) / Num.of_Z ((k + 1) * (k + 2))
                * arcsine_series x2 (k + 2) n'
  end.

Definition asin_small (x : number) : number := x * arcsine_series (x * x) 1 30.

(** NaN outside [-1, 1]; the series up to 1/2, and the half-angle
    identity above. *)
Definition asin (x : number) : number :=
  if Num.is_nan x || Num.gt x Num.one || Num.lt x (- Num.one) then Num.NaN
  else if Num.le (Num.abs x) half then asin_small x
  else
    let r := PI_2 - Num.two * asin_small (Num.sqrt ((Num.one - Num.abs x) / Num.two)) in
    if Num.lt x Num.zero then - r else r.

Definition atan (t : number) : number :=
  match t with
  | S754_nan => Num.NaN
  | S754_infinity s => if s then - PI_2 else PI_2
  | _ => asin (t / Num.sqrt (Num.one + t * t))
  end.

Definition atan2 (y x : number) : number :=
  if Num.gt x Num.zero then atan (y / x)
  else if Num.lt x Num.zero then
    if Num.lt y Num.zero then atan (y / x) - PI else atan (y / x) + PI
  else if Num.gt y Num.zero then PI_2
  else if Num.lt y Num.zero then - PI_2
  else Num.zero.

(** *** Vector3 *)

Definition sub3 (a b : Vector3) : Vector3 :=
  mkVector3 (vx a - vx b) (vy a - vy b) (vz a - vz b).

Definition add3 (a b : Vector3) : Vector3 :=
  mkVector3 (vx a + vx b) (vy a + vy b) (vz a + vz b).

Definition dot (a b : Vector3) : number :=
  vx a * vx b + vy a * vy b + vz a * vz b.

Definition length3 (v : Vector3) : number :=
  Num.sqrt (vx v * vx v + vy v * vy v + vz v * vz v).

Definition multiplyScalar (v : Vector3) (s : number) : Vector3 :=
  mkVector3 (vx v * s) (vy v * s) (vz v * s).

(** [divideScalar(length() || 1)] *)
Definition normalize (v : Vector3) : Vector3 :=
  let l := length3 v in
  multiplyScalar v (Num.one / (if truthy l then l else Num.one)).

Definition applyQuaternion (v : Vector3) (q : Quaternion) : Vector3 :=
  let tx := Num.two * (qy q * vz v - qz q * vy v) in
  let ty := Num.two * (qz q * vx v - qx q * vz v) in
  let tz := Num.two * (qx q * vy v - qy q * vx v) in
  mkVector3
    (vx v + qw q * tx + qy q * tz - qz q * ty)
    (vy v + qw q * ty + qz q * tx - qx q * tz)
    (vz v + qw q * tz + qx q * ty - qy q * tx).

(** *** Quaternion *)

Definition qlength (q : Quaternion) : number :=
  Num.sqrt (qx q * qx q + qy q * qy q + qz q * qz q + qw q * qw q).

Definition qnormalize (q : Quaternion) : Quaternion :=
  let l := qlength q in
  if Num.eq l Num.zero then mkQuaternion Num.zero Num.zero Num.zero Num.one
  else
    let l := Num.one / l in
    mkQuaternion (qx q * l) (qy q * l) (qz q * l) (qw q * l).

Definition setFromUnitVectors (vFrom vTo : Vector3) : Quaternion :=
  let r := dot vFrom vTo + Num.one in
  if Num.lt r Num.EPSILON then
    if Num.gt (Num.abs (vx vFrom)) (Num.abs (vz vFrom)) then
      qnormalize (mkQuaternion (- vy vFrom) (vx vFrom) Num.zero Num.zero)
    else
      qnormalize (mkQuaternion Num.zero (- vz vFrom) (vy vFrom) Num.zero)
  else
    qnormalize (mkQuaternion
      (vy vFrom * vz vTo - vz vFrom * vy vTo)
      (vz vFrom * vx vTo - vx vFrom * vz vTo)
      (vx vFrom * vy vTo - vy vFrom * vx vTo)
      r).

Definition multiply (a b : Quaternion) : Quaternion :=
  mkQuaternion
    (qx a * qw b + qw a * qx b + qy a * qz b - qz a * qy b)
    (qy a * qw b + qw a * qy b + qz a * qx b - qx a * qz b)
    (qz a * qw b + qw a * qz b + qx a * qy b - qy a * qx b)
    (qw a * qw b - qx a * qx b - qy a * qy b - qz a * qz b).

Definition minus_one : number := Num.of_Z (-1).

(** [conjugate] *)
Definition invert (q : Quaternion) : Quaternion :=
  mkQuaternion (qx q * minus_one) (qy q * minus_one) (qz q * minus_one) (qw q).

Definition setFromAxisAngle (axis : Vector3) (angle : number) : Quaternion :=
  let halfAngle := angle / Num.two in
  let s := sin halfAngle in
  mkQuaternion (vx axis * s) (vy axis * s) (vz axis * s) (cos halfAngle).

(** Order XYZ. *)
Definition setFromEuler (e : Euler) : Quaternion :=
  let c1 := cos (ex e / Num.two) in
  let c2 := cos (ey e / Num.two) in
  let c3 := cos (ez e / Num.two) in
  let s1 := sin (ex e / Num.two) in
  let s2 := sin (ey e / Num.two) in
  let s3 := sin (ez e / Num.two) in
  mkQuaternion
    (s1 * c2 * c3 + c1 * s2 * s3)
    (c1 * s2 * c3 - s1 * c2 * s3)
    (c1 * c2 * s3 + s1 * s2 * c3)
    (c1 * c2 * c3 - s1 * s2 * s3).

Definition clamp (value lo hi : number) : number :=
  let m := if Num.lt value hi then value else hi in
  if Num.gt m lo then m else lo.

(** Through the entries of the rotation matrix of [q], order XYZ. *)
Definition setFromQuaternion (q : Quaternion) : Euler :=
  let x2 := qx q + qx q in
  let y2 := qy q + qy q in
  let z2 := qz q + qz q in
  let xx := qx q * x2 in let xy := qx q * y2 in let xz := qx q * z2 in
  let yy := qy q * y2 in let yz := qy q * z2 in let zz := qz q * z2 in
  let wx := qw q * x2 in let wy := qw q * y2 in let wz := qw q * z2 in
  let m11 := Num.one - (yy + zz) in
  let m12 := xy - wz in
  let m13 := xz + wy in
  let m22 := Num.one - (xx + zz) in
  let m23 := yz - wx in
  let m32 := yz + wx in
  let m33 := Num.one - (xx + yy) in
  let y := asin (clamp m13 minus_one Num.one) in
  if Num.lt (Num.abs m13) (S754_finite false 9007198354021067 (-53)) then
    mkEuler (atan2 (- m23) m33) y (atan2 (- m12) m11)
  else
    mkEuler (atan2 m32 m22) y Num.zero.

(** *** Object3D *)

(** World position and world orientation of the joint at index [i]:
    those of the last of the first [i + 1] joints, under a parent at the
    origin. *)
Fixpoint world (js : list IKJoint) (n : nat) (P : Vector3) (R : Quaternion)
    : Vector3 * Quaternion :=
  match js, n with
  | j :: js', S n' =>
      world js' n' (add3 P (applyQuaternion (position j) R)) (multiply R (quaternion j))
  | _, _ => (P, R)
  end.

Definition worldOf (js : list IKJoint) (i : nat) : Vector3 * Quaternion :=
  world js (S i) Vector3_new Quaternion_new.

Definition getWorldPosition (js : list IKJoint) (i : nat) : Vector3 :=
  fst (worldOf js i).

Definition worldToLocal (js : list IKJoint) (i : nat) (v : Vector3) : Vector3 :=
  let '(P, R) := worldOf js i in
  applyQuaternion (sub3 v P) (invert R).

#[export] Instance three : ThreeJS IKJoint :=
  Build_ThreeJS IKJoint
    worldToLocal getWorldPosition
    normalize length3 applyQuaternion
    setFromUnitVectors multiply invert setFromAxisAngle
    setFromEuler setFromQuaternion
    asin.

End Ref.

(** ** World matrices in binary64

    The world-space conversions as three.js computes them, through 4x4
    matrices: [Matrix4.compose], [multiplyMatrices], [invert] and
    [Vector3.applyMatrix4], with the elements in the order of
    [Matrix4.elements].  The root joint sits under a parent at the origin
    (the group that [createFromURDF] returns); every scale is 1.  The other
    operations are those of [Ref]. *)

Module Mat.

Import Ref.
Local Open Scope num_scope.

Record Matrix4 := mkMatrix4 {
  te0 : number; te1 : number; te2 : number; te3 : number;
  te4 : number; te5 : number; te6 : number; te7 : number;
  te8 : number; te9 : number; te10 : number; te11 : number;
  te12 : number; te13 : number; te14 : number; te15 : number }.

Definition identity : Matrix4 :=
  mkMatrix4 Num.one Num.zero Num.zero Num.zero
            Num.zero Num.one Num.zero Num.zero
            Num.zero Num.zero Num.one Num.zero
            Num.zero Num.zero Num.zero Num.one.

(** [compose(position, quaternion, scale)] with the scale (1, 1, 1). *)
Definition compose (p : Vector3) (q : Quaternion) : Matrix4 :=
  let x := qx q in let y := qy q in let z := qz q in let w := qw q in
  let x2 := x + x in let y2 := y + y in let z2 := z + z in
  let xx := x * x2 in let xy := x * y2 in let xz := x * z2 in
  let yy := y * y2 in let yz := y * z2 in let zz := z * z2 in
  let wx := w * x2 in let wy := w * y2 in let wz := w * z2 in
  let sx := Num.one in let sy := Num.one in let sz := Num.one in
  mkMatrix4
    ((Num.one - (yy + zz)) * sx) ((xy + wz) * sx) ((xz - wy) * sx) Num.zero
    ((xy - wz) * sy) ((Num.one - (xx + zz)) * sy) ((yz + wx) * sy) Num.zero
    ((xz + wy) * sz) ((yz - wx) * sz) ((Num.one - (xx + yy)) * sz) Num.zero
    (vx p) (vy p) (vz p) Num.one.

Definition multiplyMatrices (a b : Matrix4) : Matrix4 :=
  let a11 := te0 a in let a12 := te4 a in let a13 := te8 a in let a14 := te12 a in
  let a21 := te1 a in let a22 := te5 a in let a23 := te9 a in let a24 := te13 a in
  let a31 := te2 a in let a32 := te6 a in let a33 := te10 a in let a34 := te14 a in
  let a41 := te3 a in let a42 := te7 a in let a43 := te11 a in let a44 := te15 a in
  let b11 := te0 b in let b12 := te4 b in let b13 := te8 b in let b14 := te12 b in
  let b21 := te1 b in let b22 := te5 b in let b23 := te9 b in let b24 := te13 b in
  let b31 := te2 b in let b32 := te6 b in let b33 := te10 b in let b34 := te14 b in
  let b41 := te3 b in let b42 := te7 b in let b43 := te11 b in let b44 := te15 b in
  mkMatrix4
    (a11 * b11 + a12 * b21 + a13 * b31 + a14 * b41)
    (a21 * b11 + a22 * b21 + a23 * b31 + a24 * b41)
    (a31 * b11 + a32 * b21 + a33 * b31 + a34 * b41)
    (a41 * b11 + a42 * b21 + a43 * b31 + a44 * b41)
    (a11 * b12 + a12 * b22 + a13 * b32 + a14 * b42)
    (a21 * b12 + a22 * b22 + a23 * b32 + a24 * b42)
    (a31 * b12 + a32 * b22 + a33 * b32 + a34 * b42)
    (a41 * b12 + a42 * b22 + a43 * b32 + a44 * b42)
    (a11 * b13 + a12 * b23 + a13 * b33 + a14 * b43)
    (a21 * b13 + a22 * b23 + a23 * b33 + a24 * b43)
    (a31 * b13 + a32 * b23 + a33 * b33 + a34 * b43)
    (a41 * b13 + a42 * b23 + a43 * b33 + a44 * b43)
    (a11 * b14 + a12 * b24 + a13 * b34 + a14 * b44)
    (a21 * b14 + a22 * b24 + a23 * b34 + a24 * b44)
    (a31 * b14 + a32 * b24 + a33 * b34 + a34 * b44)
    (a41 * b14 + a42 * b24 + a43 * b34 + a44 * b44).

Definition invert (m : Matrix4) : Matrix4 :=
  let n11 := te0 m in let n21 := te1 m in let n31 := te2 m in let n41 := te3 m in
  let n12 := te4 m in let n22 := te5 m in let n32 := te6 m in let n42 := te7 m in
  let n13 := te8 m in let n23 := te9 m in let n33 := te10 m in let n43 := te11 m in
  let n14 := te12 m in let n24 := te13 m in let n34 := te14 m in let n44 := te15 m in
  let t11 := n23 * n34 * n42 - n24 * n33 * n42 + n24 * n32 * n43
             - n22 * n34 * n43 - n23 * n32 * n44 + n22 * n33 * n44 in
  let t12 := n14 * n33 * n42 - n13 * n34 * n42 - n14 * n32 * n43
             + n12 * n34 * n43 + n13 * n32 * n44 - n12 * n33 * n44 in
  let t13 := n13 * n24 * n42 - n14 * n23 * n42 + n14 * n22 * n43
             - n12 * n24 * n43 - n13 * n22 * n44 + n12 * n23 * n44 in
  let t14 := n14 * n23 * n32 - n13 * n24 * n32 - n14 * n22 * n33
             + n12 * n24 * n33 + n13 * n22 * n34 - n12 * n23 * n34 in
  let det := n11 * t11 + n21 * t12 + n31 * t13 + n41 * t14 in
  if Num.eq det Num.zero then
    mkMatrix4 Num.zero Num.zero Num.zero Num.zero Num.zero Num.zero Num.zero Num.zero
              Num.zero Num.zero Num.zero Num.zero Num.zero Num.zero Num.zero Num.zero
  else
    let detInv := Num.one / det in
    mkMatrix4
      (t11 * detInv)
      ((n24 * n33 * n41 - n23 * n34 * n41 - n24 * n31 * n43
        + n21 * n34 * n43 + n23 * n31 * n44 - n21 * n33 * n44) * detInv)
      ((n22 * n34 * n41 - n24 * n32 * n41 + n24 * n31 * n42
        - n21 * n34 * n42 - n22 * n31 * n44 + n21 * n32 * n44) * detInv)
      ((n23 * n32 * n41 - n22 * n33 * n41 - n23 * n31 * n42
        + n21 * n33 * n42 + n22 * n31 * n43 - n21 * n32 * n43) * detInv)
      (t12 * detInv)
      ((n13 * n34 * n41 - n14 * n33 * n41 + n14 * n31 * n43
        - n11 * n34 * n43 - n13 * n31 * n44 + n11 * n33 * n44) * detInv)
      ((n14 * n32 * n41 - n12 * n34 * n41 - n14 * n31 * n42
        + n11 * n34 * n42 + n12 * n31 * n44 - n11 * n32 * n44) * detInv)
      ((n12 * n33 * n41 - n13 * n32 * n41 + n13 * n31 * n42
        - n11 * n33 * n42 - n12 * n31 * n43 + n11 * n32 * n43) * detInv)
      (t13 * detInv)
      ((n14 * n23 * n41 - n13 * n24 * n41 - n14 * n21 * n43
        + n11 * n24 * n43 + n13 * n21 * n44 - n11 * n23 * n44) * detInv)
      ((n12 * n24 * n41 - n14 * n22 * n41 + n14 * n21 * n42
        - n11 * n24 * n42 - n12 * n21 * n44 + n11 * n22 * n44) * detInv)
      ((n13 * n22 * n41 - n12 * n23 * n41 - n13 * n21 * n42
        + n11 * n23 * n42 + n12 * n21 * n43 - n11 * n22 * n43) * detInv)
      (t14 * detInv)
      ((n13 * n24 * n31 - n14 * n23 * n31 + n14 * n21 * n33
        - n11 * n24 * n33 - n13 * n21 * n34 + n11 * n23 * n34) * detInv)
      ((n14 * n22 * n31 - n12 * n24 * n31 - n14 * n21 * n32
        + n11 * n24 * n32 + n12 * n21 * n34 - n11 * n22 * n34) * detInv)
      ((n12 * n23 * n31 - n13 * n22 * n31 + n13 * n21 * n32
        - n11 * n23 * n32 - n12 * n21 * n33 + n11 * n22 * n33) * detInv).

Definition applyMatrix4 (v : Vector3) (m : Matrix4) : Vector3 :=
  let x := vx v in let y := vy v in let z := vz v in
  let w := Num.one / (te3 m * x + te7 m * y + te11 m * z + te15 m) in
  mkVector3
    ((te0 m * x + te4 m * y + te8 m * z + te12 m) * w)
    ((te1 m * x + te5 m * y + te9 m * z + te13 m) * w)
    ((te2 m * x + te6 m * y + te10 m * z + te14 m) * w).

Definition setFromMatrixPosition (m : Matrix4) : Vector3 :=
  mkVector3 (te12 m) (te13 m) (te14 m).

(** [updateWorldMatrix(true, false)] down the first [n] joints:
    [matrixWorld = parent.matrixWorld * matrix]. *)
Fixpoint matrixWorld (js : list IKJoint) (n : nat) (parent : Matrix4) : Matrix4 :=
  match js, n with
  | j :: js', S n' =>
      matrixWorld js' n' (multiplyMatrices parent (compose (position j) (quaternion j)))
  | _, _ => parent
  end.

Definition matrixWorldOf (js : list IKJoint) (i : nat) : Matrix4 :=
  matrixWorld js (S i) identity.

Definition getWorldPosition (js : list IKJoint) (i : nat) : Vector3 :=
  setFromMatrixPosition (matrixWorldOf js i).

Definition worldToLocal (js : list IKJoint) (i : nat) (v : Vector3) : Vector3 :=
  applyMatrix4 v (invert (matrixWorldOf js i)).

#[export] Instance three : ThreeJS IKJoint :=
  Build_ThreeJS IKJoint
    worldToLocal getWorldPosition
    Ref.normalize Ref.length3 Ref.applyQuaternion
    Ref.setFromUnitVectors Ref.multiply Ref.invert Ref.setFromAxisAngle
    Ref.setFromEuler Ref.setFromQuaternion
    Ref.asin.

End Mat.

(** ** Concrete scenes, run with the binary64 implementation *)

Module Scenes.

Definition num (z : Z) : number := Num.of_Z z.
Definition vec (x y z : Z) : Vector3 := mkVector3 (num x) (num y) (num z).
Definition noRotation : Euler := mkEuler Num.zero Num.zero Num.zero.

Definition revolute (p a : Vector3) (lo hi : Z) : URDFJoint :=
  mkURDFJoint p noRotation Quaternion_new (Some a)
    (Some (mkJointLimit (num lo) (num hi))) "revolute".

Definition fixed (p : Vector3) : URDFJoint :=
  mkURDFJoint p noRotation Quaternion_new (Some (vec 1 0 0))
    (Some (mkJointLimit (num 0) (num 0))) "fixed".

Definition link (cs : list Object3D) : Object3D := Node None cs.
Definition joint (u : URDFJoint) (child : Object3D) : Object3D := Node (Some u) [child].

(** A planar arm: two hinges about z, one unit apart, and a fixed tip one
    unit further; at rest the tip is at (2, 0, 0). *)
Definition arm : Object3D :=
  link [joint (revolute (vec 0 0 0) (vec 0 0 1) (-3) 3)
    (link [joint (revolute (vec 1 0 0) (vec 0 0 1) (-3) 3)
      (link [joint (fixed (vec 1 0 0)) (link [])])])].

Definition arm_joints : list IKJoint :=
  [ @IKJoint_new Ref.three None;
    @IKJoint_new Ref.three (Some (revolute (vec 0 0 0) (vec 0 0 1) (-3) 3));
    @IKJoint_new Ref.three (Some (revolute (vec 1 0 0) (vec 0 0 1) (-3) 3));
    @IKJoint_new Ref.three (Some (fixed (vec 1 0 0))) ].

Definition arm_chain : IKChain := mkIKChain arm_joints (Some 3%nat).

(** The same arm with a fixed joint between the hinges. *)
Definition braced_joints : list IKJoint :=
  [ @IKJoint_new Ref.three None;
    @IKJoint_new Ref.three (Some (revolute (vec 0 0 0) (vec 0 0 1) (-3) 3));
    @IKJoint_new Ref.three (Some (fixed (vec 1 0 0)));
    @IKJoint_new Ref.three (Some (revolute (vec 0 0 0) (vec 0 0 1) (-3) 3));
    @IKJoint_new Ref.three (Some (fixed (vec 1 0 0))) ].

Definition braced_chain : IKChain := mkIKChain braced_joints (Some 4%nat).

(** A description that branches: the first link carries two joints, and
    the joint that is followed has the axis (0, 0, 0). *)
Definition forked : Object3D :=
  link [joint (revolute (vec 0 0 0) (vec 0 0 1) (-3) 3)
    (link [ joint (revolute (vec 1 0 0) (vec 0 0 0) (-3) 3) (link []);
            joint (revolute (vec 0 1 0) (vec 0 0 1) (-3) 3)
              (link [joint (fixed (vec 1 0 0)) (link [])]) ])].

(** A hinge about x whose orientation has drifted one unit in the last
    place above 1 on that axis. *)
Definition drifted : IKJoint :=
  mkIKJoint (Some (revolute (vec 0 0 0) (vec 1 0 0) (-3) 3)) (vec 0 0 0)
    (mkQuaternion (S754_finite false 4503599627370497 (-52)) Num.zero Num.zero Num.zero).

(** A continuous joint with the unit axis (3/5, 4/5, 0), turned by half a
    turn about x: its orientation is the unit quaternion (1, 0, 0, 0). *)
Definition tilted : IKJoint :=
  mkIKJoint
    (Some (mkURDFJoint (vec 0 0 0) noRotation Quaternion_new
             (Some (mkVector3 (Num.div (num 3) (num 5)) (Num.div (num 4) (num 5)) (num 0)))
             (Some (mkJointLimit (num (-3)) (num 3))) "continuous"))
    (vec 0 0 0)
    (mkQuaternion (num 1) (num 0) (num 0) (num 0)).

(** The root joint, turned a little about its axis y. *)
Definition turned_root : IKJoint :=
  mkIKJoint None Vector3_new
    (@setFromAxisAngle _ Ref.three DEFAULT_AXIS (Num.div (num 1) (num 2))).

Definition config (tol_percent maxIter : Z) : IKConfig :=
  mkIKConfig (Num.div (num tol_percent) (num 100)) maxIter false.

End Scenes.

(** ** Vocabulary of the further properties *)

(** The relation between the joints before and after some passes: as many
    joints, each with the URDF joint and the position it had, and the
    joints from index [n] on untouched. *)
Definition touches_below (n : nat) (js js' : list IKJoint) : Prop :=
  length js' = length js /\
  (forall i j, js !! i = Some j ->
     exists j', js' !! i = Some j' /\
       urdfJoint j' = urdfJoint j /\ position j' = position j) /\
  (forall i, (n <= i)%nat -> js' !! i = js !! i).

(** What a URDF joint keeps through write-back: everything but its
    orientation. *)
Definition urdf_static (u : URDFJoint) : Vector3 * option Vector3 * option JointLimit * string :=
  (u_position u, u_axis u, u_limit u, jointType u).

(** A child that [_baseURDFJoint] passes over: not a URDF joint, or a URDF
    joint that no joint follows. *)
Definition passed_over (c : Object3D) : Prop :=
  isURDFJoint c = false \/ _nextURDFJoint c = Ok None.

(** ** IKChain.ts: the chain object and its lazy joint list *)

(** The objects under the root joint of a chain: an [IKJoint] or any other
    object (a helper mesh), with its children in the order they were
    added. *)
#[warnings="-register-all"]
Inductive IKTree :=
| IKTree_node (self : option IKJoint) (kids : list IKTree).

(** [traverse] calls back on the object itself, then on each child in
    order; the callback of the getter keeps the instances of [IKJoint]. *)
Fixpoint collect (t : IKTree) : list IKJoint :=
  match t with
  | IKTree_node self kids =>
      match self with Some j => [j] | None => [] end ++ List.flat_map collect kids
  end.

(** [parent.add(child)]: the child goes last. *)
Definition add (parent : IKTree) (child : list IKTree) : IKTree :=
  match parent with
  | IKTree_node self kids => IKTree_node self (kids ++ child)
  end.

(** The joints made by [_traverseURDFJoints], each added to the one
    before. *)
Fixpoint nest (made : list IKJoint) : list IKTree :=
  match made with
  | [] => []
  | j :: rest => [IKTree_node (Some j) (nest rest)]
  end.

(** The private fields of an [IKChain].  Joints are held by value: the
    record describes the chain between builds and reads of the list, not
    through a solve. *)
Record IKChainObject := mkIKChainObject {
  _rootJoint : IKTree;
  _endEffector : option IKJoint;
  _ikJoints : option (list IKJoint) }.

Section ChainObject.
Context `{ThreeJS IKJoint}.

(** [new IKChain()] *)
Definition IKChainObject_new : IKChainObject :=
  mkIKChainObject (IKTree_node (Some (IKJoint_new None)) []) None None.

(** The getter [ikJoints]: the list and the chain with the list cached. *)
Definition ikJoints_get (c : IKChainObject) : list IKJoint * IKChainObject :=
  match _ikJoints c with
  | Some l => (l, c)
  | None =>
      let l := collect (_rootJoint c) in
      (l, mkIKChainObject (_rootJoint c) (_endEffector c) (Some l))
  end.

(** [createFromURDF] on a chain in any state: the joints made go under the
    root joint, after what is there; the cached list is not touched.  The
    returned group, which holds the robot and the root joint, has no part
    in what follows. *)
Definition createFromURDF_on (c : IKChainObject) (robot : Object3D) : result IKChainObject :=
  base ← _baseURDFJoint robot;
  match base with
  | None => Throw TypeError
  | Some urdfJoint =>
      made ← _traverseURDFJoints urdfJoint;
      Ok (mkIKChainObject (add (_rootJoint c) (nest made)) (last made) (_ikJoints c))
  end.

End ChainObject.

Module MoreScenes.

(** A robot with a single joint. *)
Definition single : Object3D :=
  Scenes.link [Scenes.joint
    (Scenes.revolute (Scenes.vec 0 0 0) (Scenes.vec 0 0 1) (-3) 3) (Scenes.link [])].

(** The arm in a pose: the first hinge carries the orientation
    (0, 3/5, 0, 4/5), a turn about y as the origin of a URDF joint may give
    it, the second hinge the turn (0, 0, 8/17, 15/17) about its axis z. *)
Definition posed_joints : list IKJoint :=
  [ @IKJoint_new Ref.three None;
    set_quaternion
      (mkQuaternion (Scenes.num 0) (Num.div (Scenes.num 3) (Scenes.num 5))
         (Scenes.num 0) (Num.div (Scenes.num 4) (Scenes.num 5)))
      (@IKJoint_new Ref.three
         (Some (Scenes.revolute (Scenes.vec 0 0 0) (Scenes.vec 0 0 1) (-3) 3)));
    set_quaternion
      (mkQuaternion (Scenes.num 0) (Scenes.num 0)
         (Num.div (Scenes.num 8) (Scenes.num 17)) (Num.div (Scenes.num 15) (Scenes.num 17)))
      (@IKJoint_new Ref.three
         (Some (Scenes.revolute (Scenes.vec 1 0 0) (Scenes.vec 0 0 1) (-3) 3)));
    @IKJoint_new Ref.three (Some (Scenes.fixed (Scenes.vec 1 0 0))) ].

Definition posed_chain : IKChain := mkIKChain posed_joints (Some 3%nat).

(** The world position of its end effector, as three.js computes it. *)
Definition posed_effector : Vector3 := Mat.getWorldPosition posed_joints 3.

(** A tolerance of 1e-16. *)
Definition fine_config : IKConfig :=
  mkIKConfig (Num.div (Scenes.num 1) (Scenes.num 10000000000000000)) 3 false.

(** A robot of two URDF joints, and the joints of a chain that was built
    from it twice: the joints at 1 and 4 were made from the first URDF
    joint, those at 2 and 5 from the second; the joint at 1 has been
    turned. *)
Definition robot_joints : list URDFJoint :=
  [ Scenes.revolute (Scenes.vec 0 0 0) (Scenes.vec 0 0 1) (-3) 3;
    Scenes.fixed (Scenes.vec 1 0 0) ].

Definition twice_refs : list (option nat) :=
  [None; Some 0%nat; Some 1%nat; None; Some 0%nat; Some 1%nat].

Definition twice_joints : list IKJoint :=
  [ @IKJoint_new Ref.three None;
    set_quaternion
      (mkQuaternion (Scenes.num 0) (Scenes.num 0)
         (Num.div (Scenes.num 3) (Scenes.num 5)) (Num.div (Scenes.num 4) (Scenes.num 5)))
      (@IKJoint_new Ref.three
         (Some (Scenes.revolute (Scenes.vec 0 0 0) (Scenes.vec 0 0 1) (-3) 3)));
    @IKJoint_new Ref.three (Some (Scenes.fixed (Scenes.vec 1 0 0)));
    @IKJoint_new Ref.three None;
    @IKJoint_new Ref.three
      (Some (Scenes.revolute (Scenes.vec 0 0 0) (Scenes.vec 0 0 1) (-3) 3));
    @IKJoint_new Ref.three (Some (Scenes.fixed (Scenes.vec 1 0 0))) ].

(** The URDF joints of the planar arm, and the references of its chain. *)
Definition arm_robot : list URDFJoint :=
  [ Scenes.revolute (Scenes.vec 0 0 0) (Scenes.vec 0 0 1) (-3) 3;
    Scenes.revolute (Scenes.vec 1 0 0) (Scenes.vec 0 0 1) (-3) 3;
    Scenes.fixed (Scenes.vec 1 0 0) ].

Definition arm_refs : list (option nat) := [None; Some 0%nat; Some 1%nat; Some 2%nat].

End MoreScenes.

(** * Properties *)

(** ** Order of binary64 values *)

Lemma SFcompare_antisym (a b : number) :
  SFcompare b a = CompOpp <$> SFcompare a b.
Proof.
  destruct a as [sa|sa| |sa ma ea], b as [sb|sb| |sb mb eb]; simpl;
    try reflexivity; try (destruct sa; reflexivity); try (destruct sb; reflexivity);
    try (destruct sa, sb; reflexivity).
  destruct sa, sb; simpl; try reflexivity;
    rewrite (Z.compare_antisym ea eb); destruct (ea ?= eb)%Z; simpl; try reflexivity;
    rewrite (Pos.compare_cont_antisym); simpl; try reflexivity.
  rewrite CompOpp_involutive. reflexivity.
Qed.

Lemma SFcompare_refl (a : number) :
  Num.is_nan a = false -> SFcompare a a = Some Eq.
Proof.
  destruct a as [s|s| |s m e]; simpl; try congruence; intros _.
  - destruct s; reflexivity.
  - destruct s; rewrite Z.compare_refl, Pos.compare_cont_refl; reflexivity.
Qed.

Lemma SFcompare_total (a b : number) :
  Num.is_nan a = false -> Num.is_nan b = false -> is_Some (SFcompare a b).
Proof. destruct a, b; simpl; try congruence; eauto. Qed.

Lemma le_not_nan (a b : number) :
  Num.le a b = true -> Num.is_nan a = false /\ Num.is_nan b = false.
Proof. destruct a, b; simpl; try discriminate; auto. Qed.

Lemma le_refl (a : number) : Num.is_nan a = false -> Num.le a a = true.
Proof.
  intros Ha. unfold Num.le, SFleb. rewrite SFcompare_refl; auto.
Qed.

Lemma lt_gt_false (a b : number) : Num.lt a b = true -> Num.gt a b = false.
Proof.
  unfold Num.lt, Num.gt, SFltb. rewrite (SFcompare_antisym a b).
  destruct (SFcompare a b) as [[]|]; simpl; congruence.
Qed.

Lemma not_lt_le (a b : number) :
  Num.is_nan a = false -> Num.is_nan b = false ->
  Num.lt a b = false -> Num.le b a = true.
Proof.
  intros Ha Hb. unfold Num.lt, Num.le, SFltb, SFleb.
  rewrite (SFcompare_antisym a b).
  destruct (SFcompare_total a b Ha Hb) as [c ->].
  destruct c; simpl; congruence.
Qed.

Lemma not_gt_le (a b : number) :
  Num.is_nan a = false -> Num.is_nan b = false ->
  Num.gt a b = false -> Num.le a b = true.
Proof. intros Ha Hb. unfold Num.gt. apply (not_lt_le b a Hb Ha). Qed.

Lemma lt_le_trans (a b c : number) :
  Num.lt a b = true -> Num.le b c = true -> Num.lt a c = true.
Proof.
  unfold Num.lt, Num.le, SFltb, SFleb.
  destruct a as [sa|sa| |sa ma ea], b as [sb|sb| |sb mb eb], c as [sc|sc| |sc mc ec];
    simpl; try discriminate; try reflexivity;
    repeat match goal with s : bool |- _ => destruct s end;
    simpl; try discriminate; try reflexivity;
    rewrite ?Pos.compare_cont_spec; simpl;
    repeat match goal with
      | |- context [(?x ?= ?y)%Z] => destruct (Z.compare_spec x y)
      | |- context [(?x ?= ?y)%positive] => destruct (Pos.compare_spec x y)
      end; simpl; try discriminate; try reflexivity; try lia.
Qed.

(** Comparisons with NaN are false. *)
Lemma lt_nan_l (b : number) : Num.lt Num.NaN b = false.
Proof. reflexivity. Qed.

Lemma gt_nan_l (b : number) : Num.gt Num.NaN b = false.
Proof. destruct b; reflexivity. Qed.

(** A number that is [=== 0] is not above a positive tolerance. *)
Lemma zero_not_above_positive (d tol : number) :
  Num.eq d Num.zero = true -> Num.gt tol Num.zero = true -> Num.gt d tol = false.
Proof.
  destruct d as [s|s| |s m e]; simpl; try discriminate; try (destruct s; discriminate).
  intros _. destruct tol as [s'|s'| |s' m' e']; try destruct s'; simpl; try discriminate;
    reflexivity.
Qed.

Lemma le_not_lt (a b : number) : Num.le a b = true -> Num.lt b a = false.
Proof.
  unfold Num.lt, Num.le, SFltb, SFleb. rewrite (SFcompare_antisym a b).
  destruct (SFcompare a b) as [[]|]; simpl; congruence.
Qed.

(** ** The limit step *)

Lemma clamp_below (a : number) (l : JointLimit) :
  Num.lt a (lower l) = true -> clampIKJointRotationAngle a l = (lower l, true).
Proof. unfold clampIKJointRotationAngle. intros ->. reflexivity. Qed.

Lemma clamp_above (a : number) (l : JointLimit) :
  Num.lt a (lower l) = false -> Num.gt a (upper l) = true ->
  clampIKJointRotationAngle a l = (upper l, true).
Proof. unfold clampIKJointRotationAngle. intros -> ->. reflexivity. Qed.

Lemma clamp_within (a : number) (l : JointLimit) :
  Num.lt a (lower l) = false -> Num.gt a (upper l) = false ->
  clampIKJointRotationAngle a l = (a, false).
Proof. unfold clampIKJointRotationAngle. intros -> ->. reflexivity. Qed.

Lemma clamp_nan (l : JointLimit) :
  clampIKJointRotationAngle Num.NaN l = (Num.NaN, false).
Proof. apply clamp_within; [apply lt_nan_l | apply gt_nan_l]. Qed.

Lemma limit_truthy (j : IKJoint) : truthy (limit j) = true.
Proof. reflexivity. Qed.

Section LimitStep.
Context `{ThreeJS IKJoint}.

Lemma clampToLimit_unfold (j : IKJoint) :
  clampToLimit j =
    if (clampIKJointRotationAngle (getIKJointRotationAngle j) (limit j)).2
    then set_quaternion
           (setFromAxisAngle (axis j)
              (clampIKJointRotationAngle (getIKJointRotationAngle j) (limit j)).1) j
    else j.
Proof.
  unfold clampToLimit. rewrite limit_truthy.
  destruct (clampIKJointRotationAngle _ _) as [c []]; reflexivity.
Qed.

(** C8: for a limit with [lower <= upper], the helper returns [lower] when
    the angle is below it, [upper] when the angle is above it and the angle
    itself otherwise; the flag is true exactly when the angle is below
    [lower] or above [upper]; for an angle that is a number the result lies
    in [[lower, upper]] and the flag is false exactly when the angle does.
    The solver overwrites the orientation, with the axis-angle rotation at
    the clamped value, only when the flag is true. *)
Theorem clampIKJointRotationAngle_spec (a : number) (l : JointLimit) :
  Num.le (lower l) (upper l) = true ->
  let r := (clampIKJointRotationAngle a l).1 in
  let isClamped := (clampIKJointRotationAngle a l).2 in
  (Num.lt a (lower l) = true -> r = lower l) /\
  (Num.gt a (upper l) = true -> r = upper l) /\
  (Num.lt a (lower l) = false -> Num.gt a (upper l) = false -> r = a) /\
  (isClamped = true <-> Num.lt a (lower l) = true \/ Num.gt a (upper l) = true) /\
  (Num.is_nan a = false ->
     Num.le (lower l) r = true /\ Num.le r (upper l) = true /\
     (isClamped = false <-> Num.le (lower l) a = true /\ Num.le a (upper l) = true)) /\
  (forall j : IKJoint,
     limit j = l -> getIKJointRotationAngle j = a ->
     (isClamped = true ->
        clampToLimit j = set_quaternion (setFromAxisAngle (axis j) r) j) /\
     (isClamped = false -> clampToLimit j = j)).
Proof.
  intros Hlu r isClamped. subst r isClamped.
  destruct (le_not_nan _ _ Hlu) as [Hl Hu].
  assert (Hj : forall (j : IKJoint) c f,
             clampIKJointRotationAngle (getIKJointRotationAngle j) (limit j) = (c, f) ->
             (f = true -> clampToLimit j = set_quaternion (setFromAxisAngle (axis j) c) j) /\
             (f = false -> clampToLimit j = j)).
  { intros j c f Hc. rewrite clampToLimit_unfold, Hc. simpl.
    split; intros ->; reflexivity. }
  destruct (Num.lt a (lower l)) eqn:Hlt; [|destruct (Num.gt a (upper l)) eqn:Hgt].
  - assert (Hngt : Num.gt a (upper l) = false)
      by (apply lt_gt_false, (lt_le_trans _ _ _ Hlt Hlu)).
    pose proof (clamp_below _ _ Hlt) as Hc. rewrite Hc. simpl.
    split; [reflexivity|]. split; [congruence|]. split; [discriminate|].
    split; [tauto|]. split.
    + intros _. split; [auto using le_refl|]. split; [assumption|].
      split; [discriminate|]. intros [Hle _]. apply le_not_lt in Hle.
      unfold Num.gt, Num.lt in *. rewrite Hlt in Hle. discriminate.
    + intros j <- <-. apply Hj, Hc.
  - pose proof (clamp_above _ _ Hlt Hgt) as Hc. rewrite Hc. simpl.
    split; [discriminate|]. split; [reflexivity|]. split; [discriminate|].
    split; [tauto|]. split.
    + intros _. split; [assumption|]. split; [auto using le_refl|].
      split; [discriminate|]. intros [_ Hle]. apply le_not_lt in Hle.
      unfold Num.gt, Num.lt in *. rewrite Hgt in Hle. discriminate.
    + intros j <- <-. apply Hj, Hc.
  - pose proof (clamp_within _ _ Hlt Hgt) as Hc. rewrite Hc. simpl.
    split; [discriminate|]. split; [discriminate|]. split; [reflexivity|].
    split; [split; [discriminate | intros [|]; discriminate]|]. split.
    + intros Ha. split; [apply not_lt_le; auto|]. split; [apply not_gt_le; auto|].
      split; [|reflexivity]. intros _.
      split; [apply not_lt_le; auto | apply not_gt_le; auto].
    + intros j <- <-. apply Hj, Hc.
Qed.

End LimitStep.

Lemma clampIKJointRotationAngle_spec_witness :
  Num.le (Scenes.num 0) (Scenes.num 1) = true /\
  (clampIKJointRotationAngle (Scenes.num 2)
     (mkJointLimit (Scenes.num 0) (Scenes.num 1))).1 = Scenes.num 1.
Proof.
  split; [reflexivity|].
  apply (@clampIKJointRotationAngle_spec Ref.three (Scenes.num 2)
           (mkJointLimit (Scenes.num 0) (Scenes.num 1)) eq_refl).
  reflexivity.
Defined.

(** ** The angle of a joint *)

Section Angle.
Context `{ThreeJS IKJoint}.

Lemma clampToLimit_nan (j : IKJoint) :
  getIKJointRotationAngle j = Num.NaN -> clampToLimit j = j.
Proof.
  intros Ha. rewrite clampToLimit_unfold, Ha, clamp_nan. reflexivity.
Qed.

(** C2, as the code has it: the quotient goes to the inverse sine as it
    is computed, without clamping; when it is NaN or outside [[-1, 1]] the
    angle is NaN, and the limit step leaves the orientation as it is. *)
Theorem getIKJointRotationAngle_unclamped (j : IKJoint) :
  asin_domain ->
  getIKJointRotationAngle j = Num.mul (Math_asin (angleRatio j)) Num.two /\
  (Num.is_nan (angleRatio j) = true \/ Num.gt (angleRatio j) Num.one = true \/
   Num.lt (angleRatio j) (Num.neg Num.one) = true ->
   getIKJointRotationAngle j = Num.NaN /\ clampToLimit j = j).
Proof.
  intros Hasin. split; [reflexivity|]. intros Hout.
  assert (Ha : getIKJointRotationAngle j = Num.NaN).
  { unfold getIKJointRotationAngle. rewrite (Hasin _ Hout). reflexivity. }
  split; [exact Ha | exact (clampToLimit_nan j Ha)].
Qed.

End Angle.

Lemma Ref_asin_domain : @asin_domain Ref.three.
Proof.
  intros x Hx. simpl. unfold Ref.asin.
  destruct Hx as [-> | [-> | ->]]; [reflexivity | |].
  - rewrite orb_true_r. reflexivity.
  - rewrite orb_true_r. reflexivity.
Qed.

Lemma getIKJointRotationAngle_unclamped_witness :
  @asin_domain Ref.three /\
  @getIKJointRotationAngle Ref.three Scenes.drifted = Num.NaN /\
  @clampToLimit Ref.three Scenes.drifted = Scenes.drifted.
Proof.
  split; [exact Ref_asin_domain|].
  apply (@getIKJointRotationAngle_unclamped Ref.three Scenes.drifted Ref_asin_domain).
  right; left. reflexivity.
Defined.

(** C2 fails as stated: on a hinge about x whose orientation has x one
    unit in the last place above 1, and on a continuous joint with the unit
    axis (3/5, 4/5, 0) and the unit orientation (1, 0, 0, 0), the argument
    of the inverse sine is above 1 and the angle is NaN. *)
Lemma asin_argument_out_of_domain :
  (axis Scenes.drifted = Scenes.vec 1 0 0 /\
   Num.gt (angleRatio Scenes.drifted) Num.one = true /\
   Num.is_nan (@getIKJointRotationAngle Ref.three Scenes.drifted) = true) /\
  (axisName Scenes.tilted = Some axis_x /\
   Num.gt (angleRatio Scenes.tilted) Num.one = true /\
   Num.is_nan (@getIKJointRotationAngle Ref.three Scenes.tilted) = true).
Proof. repeat split. Qed.

(** ** The configuration of the orchestrator *)

(** The literal [0.01] is the binary64 value nearest to 1/100. *)
Lemma tolerance_literal :
  tolerance defaultConfig = S754_finite false 5764607523034235 (-59).
Proof. reflexivity. Qed.

(** C10: a field left out of the partial configuration takes its default
    (tolerance 0.01, maxIterations 10, updateURDFRobot false) and a field
    that is given replaces it; a new orchestrator has no chain and no
    target. *)
Theorem IKSolver_new_config (p : PartialIKConfig) :
  let c := _config (IKSolver_new p) in
  tolerance c = default (Num.div (Num.of_Z 1) (Num.of_Z 100)) (p_tolerance p) /\
  maxIterations c = default 10 (p_maxIterations p) /\
  updateURDFRobot c = default false (p_updateURDFRobot p) /\
  ikChain (IKSolver_new p) = None /\ target (IKSolver_new p) = None.
Proof. repeat split. Qed.

(** ** The orchestrator without chain or target *)

Section MissingOperand.
Context `{ThreeJS IKJoint}.

(** C6: when the chain or the target is absent, [solve] returns normally
    and leaves the orchestrator, hence every joint and every URDF joint, as
    it was. *)
Theorem solve_missing_operand (s : IKSolver) :
  ikChain s = None \/ target s = None -> solve s = Ok s.
Proof.
  unfold solve. intros [-> | ->]; [reflexivity|].
  destruct (ikChain s); reflexivity.
Qed.

End MissingOperand.

Lemma solve_missing_operand_witness :
  let s := mkIKSolver (Some Scenes.arm_chain) None (Scenes.config 1 10) in
  (ikChain s = None \/ target s = None) /\ @solve Ref.three s = Ok s.
Proof.
  intros s. split; [right; reflexivity|].
  apply (@solve_missing_operand Ref.three s). right. reflexivity.
Defined.

(** ** The solver loop *)

Section Loop.
Context `{ThreeJS IKJoint}.

Lemma keeps_refl (st : Scene) : keeps st st.
Proof. repeat split; auto. Qed.

Lemma keeps_trans (a b c : Scene) : keeps a b -> keeps b c -> keeps a c.
Proof.
  intros (Ht & Hl & Hf) (Ht' & Hl' & Hf'). repeat split; try congruence.
  intros i j Hi Hfix. eauto.
Qed.

Lemma adjustJoint_keeps (e i : nat) (st st' : Scene) :
  adjustJoint e i st = Ok st' -> keeps st st'.
Proof.
  unfold adjustJoint. destruct (joints st !! i) as [ikJoint|] eqn:Hi; [|discriminate].
  destruct (isFixed ikJoint) eqn:Hfix; simpl; intros [= <-]; [apply keeps_refl|].
  repeat split; simpl.
  - apply length_insert.
  - intros k j Hk Hj. destruct (decide (i = k)) as [->|Hne].
    + congruence.
    + rewrite list_lookup_insert_ne; auto.
Qed.

Lemma adjustJoint_total (e i : nat) (st : Scene) :
  (i < length (joints st))%nat -> exists st', adjustJoint e i st = Ok st'.
Proof.
  intros Hi. apply lookup_lt_is_Some_2 in Hi as [j Hj].
  unfold adjustJoint. rewrite Hj. destruct (negb (isFixed j)); eauto.
Qed.

Lemma forJoints_keeps (e n : nat) (st st' : Scene) :
  forJoints e n st = Ok st' -> keeps st st'.
Proof.
  revert st. induction n as [|i IH]; simpl; intros st.
  - intros [= <-]. apply keeps_refl.
  - destruct (adjustJoint e i st) as [st1|] eqn:Hadj; simpl; [|discriminate].
    intros Hrest. eapply keeps_trans; [eapply adjustJoint_keeps|]; eauto.
Qed.

Lemma forJoints_total (e n : nat) (st : Scene) :
  (n <= length (joints st))%nat -> exists st', forJoints e n st = Ok st'.
Proof.
  revert st. induction n as [|i IH]; simpl; intros st Hn; [eauto|].
  destruct (adjustJoint_total e i st) as [st1 Hadj]; [lia|].
  rewrite Hadj. simpl. apply IH.
  apply adjustJoint_keeps in Hadj as (_ & -> & _). lia.
Qed.

Lemma sweep_keeps (e : nat) (st st' : Scene) : sweep e st = Ok st' -> keeps st st'.
Proof. apply forJoints_keeps. Qed.

(** A pass raises no error. *)
Lemma sweep_total (e : nat) (st : Scene) : exists st', sweep e st = Ok st'.
Proof. apply forJoints_total. lia. Qed.

Lemma sweeps_keeps (e n : nat) (st st' : Scene) : sweeps e n st = Ok st' -> keeps st st'.
Proof.
  revert st. induction n as [|n IH]; simpl; intros st.
  - intros [= <-]. apply keeps_refl.
  - destruct (sweep e st) as [st1|] eqn:Hs; simpl; [|discriminate].
    intros Hrest. eapply keeps_trans; [eapply sweep_keeps|]; eauto.
Qed.

Lemma sweeps_total (e n : nat) (st : Scene) : exists st', sweeps e n st = Ok st'.
Proof.
  revert st. induction n as [|n IH]; simpl; intros st; [eauto|].
  destruct (sweep_total e st) as [st1 ->]. simpl. apply IH.
Qed.

Lemma sweeps_snoc (e n : nat) (st : Scene) :
  sweeps e (S n) st = (st' ← sweeps e n st; sweep e st').
Proof.
  revert st. induction n as [|n IH]; intros st.
  - simpl. destruct (sweep e st); reflexivity.
  - change (sweeps e (S (S n)) st) with (st' ← sweep e st; sweeps e (S n) st').
    destruct (sweep e st) as [st1|] eqn:Hs; simpl; rewrite Hs; simpl; [|reflexivity].
    apply IH.
Qed.

Lemma whileLoop_clause (e : nat) (config : IKConfig) (st : Scene) (d : number) (it : Z)
    (b : bool)
    (Hb : Num.gt d (tolerance config) && (it <=? maxIterations config) = b) :
  whileLoop_unfold_clause_1 e config st d it (b ↾ Hb) =
    if b
    then match sweep e st with
         | Ok st' => whileLoop e config st' (calcEndEffectorTargetDistance e st') (it + 1)
         | Throw err => Throw err
         end
    else Ok (st, it).
Proof.
  destruct b; simpl; [|reflexivity].
  destruct (sweep e st); reflexivity.
Qed.

(** The loop, as written. *)
Lemma whileLoop_eq (e : nat) (config : IKConfig) (st : Scene) (d : number) (it : Z) :
  whileLoop e config st d it =
    if Num.gt d (tolerance config) && (it <=? maxIterations config)
    then match sweep e st with
         | Ok st' => whileLoop e config st' (calcEndEffectorTargetDistance e st') (it + 1)
         | Throw err => Throw err
         end
    else Ok (st, it).
Proof.
  rewrite whileLoop_equation_1. unfold inspect. apply whileLoop_clause.
Qed.

(** The loop returns, and what every pass keeps the loop keeps. *)
Lemma whileLoop_keeps (e : nat) (config : IKConfig) (st : Scene) (d : number) (it : Z) :
  exists st' it', whileLoop e config st d it = Ok (st', it') /\ keeps st st'.
Proof.
  remember (Z.to_nat (maxIterations config + 1 - it)) as n eqn:Hn.
  revert st d it Hn. induction n as [n IH] using lt_wf_ind. intros st d it Hn.
  rewrite whileLoop_eq.
  destruct (Num.gt d (tolerance config) && (it <=? maxIterations config)) eqn:Hc.
  - apply andb_prop in Hc as [_ Hle]. apply Z.leb_le in Hle.
    destruct (sweep_total e st) as [st1 Hs]. rewrite Hs.
    destruct (IH (Z.to_nat (maxIterations config + 1 - (it + 1))) ltac:(lia)
                st1 (calcEndEffectorTargetDistance e st1) (it + 1) eq_refl)
      as (st' & it' & Hloop & Hk).
    exists st', it'. split; [exact Hloop|].
    eapply keeps_trans; [eapply sweep_keeps|]; eauto.
  - exists st, it. split; [reflexivity | apply keeps_refl].
Qed.

(** While the distance stays above the tolerance, the loop makes a pass
    for every value of [iteration] from its start up to [maxIterations]
    included. *)
Lemma whileLoop_far (e : nat) (config : IKConfig) (n : nat) (st : Scene) (it : Z) :
  it + Z.of_nat n = maxIterations config + 1 ->
  (forall (k : nat) (st' : Scene),
     (k < n)%nat -> sweeps e k st = Ok st' ->
     Num.gt (calcEndEffectorTargetDistance e st') (tolerance config) = true) ->
  whileLoop e config st (calcEndEffectorTargetDistance e st) it =
    (st' ← sweeps e n st; Ok (st', maxIterations config + 1)).
Proof.
  revert st it. induction n as [|n IH]; intros st it Hit Hfar.
  - rewrite whileLoop_eq.
    replace (it <=? maxIterations config) with false by (symmetry; apply Z.leb_gt; lia).
    rewrite andb_false_r. simpl. repeat f_equal. lia.
  - rewrite whileLoop_eq.
    rewrite (Hfar 0%nat st) by (simpl; auto; lia).
    replace (it <=? maxIterations config) with true by (symmetry; apply Z.leb_le; lia).
    simpl. destruct (sweep e st) as [st1|] eqn:Hs; simpl; [|reflexivity].
    apply IH; [lia|]. intros k st' Hk Hsw.
    apply (Hfar (S k) st'); [lia|]. simpl. rewrite Hs. exact Hsw.
Qed.

End Loop.

(** ** The solver *)

Section SolverProperties.
Context `{ThreeJS IKJoint}.

(** The solver returns on every chain that has an end effector, and keeps
    what every pass keeps. *)
Lemma CCDIKSolver_keeps (chain : IKChain) (target : Vector3) (config : IKConfig) :
  match CCDIKSolver chain target config with
  | Ok (st, _) => keeps (mkScene (ikJoints chain) target) st
  | Throw _ => endEffector chain = None
  end.
Proof.
  unfold CCDIKSolver. destruct (endEffector chain) as [e|]; [|reflexivity].
  destruct (whileLoop_keeps e config (mkScene (ikJoints chain) target)
              (calcEndEffectorTargetDistance e (mkScene (ikJoints chain) target)) 0)
    as (st' & it' & -> & Hk).
  exact Hk.
Qed.

(** C5: a solve leaves every fixed joint of the chain as it was, its
    orientation included, whatever the target and the configuration; the
    solver throws only on a chain without end effector, before any joint
    is touched. *)
Theorem fixed_joint_unchanged
    (chain : IKChain) (target : Vector3) (config : IKConfig) (i : nat) (j : IKJoint) :
  ikJoints chain !! i = Some j ->
  isFixed j = true ->
  match CCDIKSolver chain target config with
  | Ok (st, _) =>
      joints st !! i = Some j /\
      quaternion <$> joints st !! i = quaternion <$> ikJoints chain !! i
  | Throw _ => endEffector chain = None
  end.
Proof.
  intros Hi Hfix. pose proof (CCDIKSolver_keeps chain target config) as Hk.
  destruct (CCDIKSolver chain target config) as [[st it]|]; [|exact Hk].
  destruct Hk as (_ & _ & Hfixed).
  assert (Hst : joints st !! i = Some j) by (apply Hfixed; assumption).
  split; [exact Hst|]. rewrite Hst, Hi. reflexivity.
Qed.

(** A chain whose end effector is within the tolerance of the target is
    left as it is, without a pass. *)
Lemma CCDIKSolver_within_tolerance
    (chain : IKChain) (target : Vector3) (config : IKConfig) (e : nat) :
  endEffector chain = Some e ->
  Num.gt (calcEndEffectorTargetDistance e (mkScene (ikJoints chain) target))
    (tolerance config) = false ->
  CCDIKSolver chain target config = Ok (mkScene (ikJoints chain) target, 0).
Proof.
  intros He Hd. unfold CCDIKSolver. rewrite He, whileLoop_eq, Hd. reflexivity.
Qed.

(** C7, as the code has it: with a tolerance above zero, when the distance
    that the solver computes on entry, the length of the target taken into
    the frame of the end effector, is zero, the solver makes no pass and
    leaves every joint as it was; solving again from the result gives the
    same result.  The condition is on the computed distance: a target at
    the world position of the end effector need not meet it, see
    [target_on_effector_turns_joints]. *)
Theorem solve_at_target
    (chain : IKChain) (target : Vector3) (config : IKConfig) (e : nat) :
  endEffector chain = Some e ->
  Num.gt (tolerance config) Num.zero = true ->
  Num.eq (calcEndEffectorTargetDistance e (mkScene (ikJoints chain) target)) Num.zero
    = true ->
  exists st : Scene,
    CCDIKSolver chain target config = Ok (st, 0) /\
    joints st = ikJoints chain /\
    targetPos st = target /\
    CCDIKSolver (mkIKChain (joints st) (endEffector chain)) (targetPos st) config
      = Ok (st, 0).
Proof.
  intros He Htol Hd.
  pose proof (CCDIKSolver_within_tolerance chain target config e He
                (zero_not_above_positive _ _ Hd Htol)) as Hrun.
  exists (mkScene (ikJoints chain) target). repeat split; exact Hrun.
Qed.

(** C4, as the code has it: when the distance stays above the tolerance,
    the solver raises no error and halts after [maxIterations + 1] passes,
    one more than [maxIterations]. *)
Theorem unreachable_target_passes
    (chain : IKChain) (target : Vector3) (config : IKConfig) (e : nat) :
  endEffector chain = Some e ->
  0 < maxIterations config ->
  (forall (k : nat) (st : Scene),
     Z.of_nat k <= maxIterations config ->
     sweeps e k (mkScene (ikJoints chain) target) = Ok st ->
     Num.gt (calcEndEffectorTargetDistance e st) (tolerance config) = true) ->
  exists st : Scene,
    sweeps e (Z.to_nat (maxIterations config + 1)) (mkScene (ikJoints chain) target)
      = Ok st /\
    CCDIKSolver chain target config = Ok (st, maxIterations config + 1).
Proof.
  intros He Hmax Hfar.
  destruct (sweeps_total e (Z.to_nat (maxIterations config + 1))
              (mkScene (ikJoints chain) target)) as [st Hst].
  exists st. split; [exact Hst|].
  unfold CCDIKSolver. rewrite He.
  rewrite (whileLoop_far e config (Z.to_nat (maxIterations config + 1))).
  - rewrite Hst. reflexivity.
  - lia.
  - intros k st' Hk. apply Hfar. lia.
Qed.

Lemma urdfJoint_turned (e i : nat) (st : Scene) (j : IKJoint) :
  urdfJoint (correctAxis (aimAtTarget e i st j)) = urdfJoint j.
Proof. unfold correctAxis. destruct (_ || _); reflexivity. Qed.

(** C1, as the code has it: the limit step runs on every joint that is
    not fixed.  A joint without a declared limit, such as the root joint,
    is held to the limit [{lower: 0, upper: 0}]: when its angle after the
    turn is below or above zero, its orientation is overwritten with the
    rotation by zero about its axis. *)
Theorem undeclared_limit_is_clamped (e i : nat) (st : Scene) (j : IKJoint) :
  joints st !! i = Some j ->
  isFixed j = false ->
  urdfJoint j ≫= u_limit = None ->
  Num.lt (getIKJointRotationAngle (correctAxis (aimAtTarget e i st j))) (Num.of_Z 0) = true \/
  Num.gt (getIKJointRotationAngle (correctAxis (aimAtTarget e i st j))) (Num.of_Z 0) = true ->
  adjustJoint e i st =
    Ok (set_joints
          (<[i := set_quaternion (setFromAxisAngle (axis j) (Num.of_Z 0)) j]> (joints st))
          st).
Proof.
  intros Hi Hfix Hlimit Hangle.
  unfold adjustJoint. rewrite Hi, Hfix. simpl.
  set (turned := correctAxis (aimAtTarget e i st j)) in *.
  assert (Hu : urdfJoint turned = urdfJoint j) by apply urdfJoint_turned.
  assert (Hl : limit turned = mkJointLimit (Num.of_Z 0) (Num.of_Z 0)).
  { unfold limit. rewrite Hu, Hlimit. reflexivity. }
  assert (Ha : axis turned = axis j) by (unfold axis; rewrite Hu; reflexivity).
  assert (Hc : clampIKJointRotationAngle (getIKJointRotationAngle turned) (limit turned)
               = (Num.of_Z 0, true)).
  { rewrite Hl. destruct Hangle as [Hlt | Hgt].
    - apply (clamp_below _ (mkJointLimit (Num.of_Z 0) (Num.of_Z 0))). exact Hlt.
    - destruct (Num.lt (getIKJointRotationAngle turned) (Num.of_Z 0)) eqn:Hlt.
      + apply (clamp_below _ (mkJointLimit (Num.of_Z 0) (Num.of_Z 0))). exact Hlt.
      + apply (clamp_above _ (mkJointLimit (Num.of_Z 0) (Num.of_Z 0))); assumption. }
  rewrite clampToLimit_unfold, Hc. simpl. rewrite Ha.
  unfold set_quaternion. simpl. rewrite Hu.
  replace (position turned) with (position j); [reflexivity|].
  unfold turned, correctAxis. destruct (_ || _); reflexivity.
Qed.

End SolverProperties.

(** *** Runs on the planar arm *)

Lemma fixed_joint_unchanged_witness :
  Scenes.braced_joints !! 2%nat = Some (@IKJoint_new Ref.three (Some (Scenes.fixed (Scenes.vec 1 0 0)))) /\
  match @CCDIKSolver Ref.three Scenes.braced_chain (Scenes.vec 1 1 0) (Scenes.config 1 3) with
  | Ok (st, _) =>
      joints st !! 2%nat = Some (@IKJoint_new Ref.three (Some (Scenes.fixed (Scenes.vec 1 0 0)))) /\
      quaternion <$> joints st !! 2%nat = quaternion <$> Scenes.braced_joints !! 2%nat
  | Throw _ => False
  end.
Proof.
  split; [reflexivity|].
  pose proof (@fixed_joint_unchanged Ref.three Scenes.braced_chain (Scenes.vec 1 1 0)
                (Scenes.config 1 3) 2%nat _ eq_refl eq_refl) as Hfix.
  destruct (@CCDIKSolver Ref.three Scenes.braced_chain (Scenes.vec 1 1 0) (Scenes.config 1 3))
    as [[st it]|]; [exact Hfix | discriminate Hfix].
Defined.

Lemma solve_at_target_witness :
  Num.gt (tolerance (Scenes.config 1 10)) Num.zero = true /\
  @calcEndEffectorTargetDistance Ref.three 3 (mkScene Scenes.arm_joints (Scenes.vec 2 0 0))
    = Num.zero /\
  exists st : Scene,
    @CCDIKSolver Ref.three Scenes.arm_chain (Scenes.vec 2 0 0) (Scenes.config 1 10)
      = Ok (st, 0) /\
    joints st = Scenes.arm_joints /\
    targetPos st = Scenes.vec 2 0 0 /\
    @CCDIKSolver Ref.three (mkIKChain (joints st) (Some 3%nat)) (targetPos st)
      (Scenes.config 1 10) = Ok (st, 0).
Proof.
  split; [reflexivity|]. split; [vm_compute; reflexivity|].
  apply (@solve_at_target Ref.three Scenes.arm_chain (Scenes.vec 2 0 0)
           (Scenes.config 1 10) 3%nat eq_refl).
  - reflexivity.
  - vm_compute. reflexivity.
Defined.

(** C7, the counterexample: the posed arm with the target at the world
    position of its end effector, as [getWorldPosition] returns it, and a
    tolerance of 1e-16, with the world matrices of three.js.  The distance
    computed on entry, through the inverse of the world matrix of the end
    effector, is not zero (about 4.7e-16) and above the tolerance; the
    solver makes its 4 passes, and the orientation of the first hinge is
    no longer the one it had. *)
Lemma target_on_effector_turns_joints :
  MoreScenes.posed_effector = @getWorldPosition _ Mat.three MoreScenes.posed_joints 3 /\
  Num.gt (tolerance MoreScenes.fine_config) Num.zero = true /\
  Num.gt (@calcEndEffectorTargetDistance Mat.three 3
            (mkScene MoreScenes.posed_joints MoreScenes.posed_effector))
         (tolerance MoreScenes.fine_config) = true /\
  exists st : Scene,
    @CCDIKSolver Mat.three MoreScenes.posed_chain MoreScenes.posed_effector
      MoreScenes.fine_config = Ok (st, 4) /\
    quaternion <$> joints st !! 1%nat <> quaternion <$> MoreScenes.posed_joints !! 1%nat.
Proof.
  split; [reflexivity|]. split; [reflexivity|]. split; [vm_compute; reflexivity|].
  destruct (@CCDIKSolver Mat.three MoreScenes.posed_chain MoreScenes.posed_effector
              MoreScenes.fine_config) as [[st it]|] eqn:Hrun;
    vm_compute in Hrun; [|discriminate Hrun].
  injection Hrun as <- <-. eexists. split; [reflexivity|].
  vm_compute. discriminate.
Qed.

(** With [maxIterations = 3] and the target (3, 3, 0) out of the reach of
    the arm, the solver makes 4 passes. *)
Lemma unreachable_target_passes_witness :
  exists st : Scene,
    @sweeps Ref.three 3 4 (mkScene Scenes.arm_joints (Scenes.vec 3 3 0)) = Ok st /\
    @CCDIKSolver Ref.three Scenes.arm_chain (Scenes.vec 3 3 0) (Scenes.config 1 3)
      = Ok (st, 4).
Proof.
  apply (@unreachable_target_passes Ref.three Scenes.arm_chain (Scenes.vec 3 3 0)
           (Scenes.config 1 3) 3%nat eq_refl).
  - reflexivity.
  - intros k st Hk Hs. simpl in Hk.
    destruct k as [|[|[|[|k]]]]; [| | | |lia];
      vm_compute in Hs; injection Hs as <-; vm_compute; reflexivity.
Defined.

(** On the arm at rest with the target at (1, 0, 1), the turn gives the
    root joint an angle below zero about y, and the step sets it back to
    the rotation by zero. *)
Lemma undeclared_limit_is_clamped_witness :
  urdfJoint (@IKJoint_new Ref.three None) = None /\
  Num.lt (@getIKJointRotationAngle Ref.three
            (@correctAxis Ref.three
               (@aimAtTarget Ref.three 3 0 (mkScene Scenes.arm_joints (Scenes.vec 1 0 1))
                  (@IKJoint_new Ref.three None))))
         (Num.of_Z 0) = true /\
  @adjustJoint Ref.three 3 0 (mkScene Scenes.arm_joints (Scenes.vec 1 0 1)) =
    Ok (mkScene
          (<[0%nat := set_quaternion (@setFromAxisAngle _ Ref.three DEFAULT_AXIS (Num.of_Z 0))
                        (@IKJoint_new Ref.three None)]> Scenes.arm_joints)
          (Scenes.vec 1 0 1)).
Proof.
  split; [reflexivity|]. split; [vm_compute; reflexivity|].
  apply (@undeclared_limit_is_clamped Ref.three 3 0
           (mkScene Scenes.arm_joints (Scenes.vec 1 0 1)) (@IKJoint_new Ref.three None)
           eq_refl eq_refl eq_refl).
  left. vm_compute. reflexivity.
Defined.

(** ** Building the chain *)

Section BuildProperties.
Context `{ThreeJS IKJoint}.

Lemma _traverseURDFJoints_clause (u : Object3D) (r : result (option Object3D))
    (Hr : _nextURDFJoint u = r) :
  _traverseURDFJoints_unfold_clause_1 u (r ↾ Hr) =
    match r with
    | Throw e => Throw e
    | Ok None => Ok [IKJoint_new (node_urdf u)]
    | Ok (Some next) =>
        rest ← _traverseURDFJoints next; Ok (IKJoint_new (node_urdf u) :: rest)
    end.
Proof. destruct r as [[next|]|]; reflexivity. Qed.

(** The traversal, as written. *)
Lemma _traverseURDFJoints_eq (u : Object3D) :
  _traverseURDFJoints u =
    match _nextURDFJoint u with
    | Throw e => Throw e
    | Ok None => Ok [IKJoint_new (node_urdf u)]
    | Ok (Some next) =>
        rest ← _traverseURDFJoints next; Ok (IKJoint_new (node_urdf u) :: rest)
    end.
Proof.
  rewrite _traverseURDFJoints_equation_1. unfold inspect.
  apply _traverseURDFJoints_clause.
Qed.

(** Children of a joint after the first, and joints of a link after its
    first joint, are not looked at. *)
Lemma siblings_ignored (u : option URDFJoint) (first : Object3D) (others : list Object3D) :
  _traverseURDFJoints (Node u (first :: others)) = _traverseURDFJoints (Node u [first]).
Proof. rewrite (_traverseURDFJoints_eq (Node u (first :: others))),
         (_traverseURDFJoints_eq (Node u [first])). reflexivity. Qed.

Lemma later_joints_ignored (u l : option URDFJoint) (next : Object3D)
    (later : list Object3D) :
  isURDFJoint next = true ->
  _nextURDFJoint (Node u [Node l (next :: later)]) = Ok (Some next).
Proof. intros Hn. unfold _nextURDFJoint. simpl. rewrite Hn. reflexivity. Qed.

Lemma linked_children (u : option URDFJoint) (cs : list Object3D) (c : Object3D) :
  linked (Node u cs) = true -> In c cs -> linked c = true.
Proof.
  simpl. intros Hl Hin. apply andb_prop in Hl as [_ Hall].
  exact (proj1 (forallb_forall linked cs) Hall c Hin).
Qed.

Lemma _nextURDFJoint_linked (parent : Object3D) :
  linked parent = true -> isURDFJoint parent = true ->
  exists next, _nextURDFJoint parent = Ok next /\
    forall n, next = Some n ->
      linked n = true /\ isURDFJoint n = true /\ (size n < size parent)%nat.
Proof.
  destruct parent as [u cs]. intros Hl Hj.
  assert (Hcs : cs <> []).
  { intros ->. simpl in Hl. unfold isURDFJoint in Hj. simpl in Hj. rewrite Hj in Hl.
    discriminate. }
  destruct cs as [|[l gcs] cs]; [congruence|].
  exists (List.find isURDFJoint gcs). split; [reflexivity|].
  intros n Hfind. apply List.find_some in Hfind as Hn. destruct Hn as [Hin Hisj].
  assert (Hfirst : linked (Node l gcs) = true)
    by (apply (linked_children u (Node l gcs :: cs)); [exact Hl | left; reflexivity]).
  split; [exact (linked_children l gcs n Hfirst Hin)|]. split; [exact Hisj|].
  simpl. clear -Hin. induction gcs as [|c gcs IH]; [destruct Hin|].
  simpl. destruct Hin as [-> | Hin]; [lia|]. specialize (IH Hin). lia.
Qed.

(** On a linked description the traversal returns, with at least one
    joint. *)
Lemma _traverseURDFJoints_total (u : Object3D) :
  linked u = true -> isURDFJoint u = true ->
  exists made, _traverseURDFJoints u = Ok made /\ (0 < length made)%nat.
Proof.
  remember (size u) as n eqn:Hn. revert u Hn.
  induction n as [n IH] using lt_wf_ind. intros u Hn Hl Hj.
  rewrite _traverseURDFJoints_eq.
  destruct (_nextURDFJoint_linked u Hl Hj) as (next & -> & Hnext).
  destruct next as [nx|].
  - destruct (Hnext nx eq_refl) as (Hlx & Hjx & Hsize).
    destruct (IH (size nx) ltac:(lia) nx eq_refl Hlx Hjx) as (rest & -> & _).
    simpl. eexists. split; [reflexivity|]. simpl. lia.
  - eexists. split; [reflexivity|]. simpl. lia.
Qed.

Lemma find_base_Some (cs : list Object3D) (base : Object3D) :
  find_base cs = Ok (Some base) -> In base cs /\ isURDFJoint base = true.
Proof.
  induction cs as [|c cs IH]; simpl; [discriminate|].
  destruct (isURDFJoint c) eqn:Hc.
  - destruct (_nextURDFJoint c) as [next|]; simpl; [|discriminate].
    destruct (truthy next).
    + intros [= ->]. auto.
    + intros Hb. destruct (IH Hb). auto.
  - intros Hb. destruct (IH Hb). auto.
Qed.

(** C3, as the code has it: there is no check for branching or for an
    axis without a non-zero component.  On every description in which
    each URDF joint has a child and the robot has a base joint, building
    returns a chain of the root joint and at least one more joint, and its
    end effector is the last joint of the chain. *)
Theorem createFromURDF_accepts (robot base : Object3D) :
  linked robot = true ->
  _baseURDFJoint robot = Ok (Some base) ->
  exists (chain : IKChain) (e : nat),
    createFromURDF robot = Ok chain /\
    endEffector chain = Some e /\
    S e = length (ikJoints chain) /\
    (0 < e)%nat /\
    is_Some (ikJoints chain !! e) /\
    ikJoints chain !! 0%nat = Some (IKJoint_new None).
Proof.
  intros Hl Hbase. unfold createFromURDF. rewrite Hbase. simpl.
  destruct robot as [u cs]. unfold _baseURDFJoint in Hbase. simpl in Hbase.
  destruct (find_base_Some cs base Hbase) as [Hin Hj].
  destruct (_traverseURDFJoints_total base (linked_children u cs base Hl Hin) Hj)
    as (made & -> & Hlen).
  simpl. exists (mkIKChain (IKJoint_new None :: made) (Some (length made))), (length made).
  simpl. repeat split; try lia.
  apply lookup_lt_is_Some_2. simpl. lia.
Qed.

End BuildProperties.

Lemma createFromURDF_accepts_witness :
  linked Scenes.forked = true /\
  exists (chain : IKChain) (e : nat),
    @createFromURDF Ref.three Scenes.forked = Ok chain /\
    endEffector chain = Some e /\
    S e = length (ikJoints chain) /\
    (0 < e)%nat /\
    is_Some (ikJoints chain !! e) /\
    ikJoints chain !! 0%nat = Some (@IKJoint_new Ref.three None).
Proof.
  split; [reflexivity|].
  apply (@createFromURDF_accepts Ref.three Scenes.forked
           (Scenes.joint (Scenes.revolute (Scenes.vec 0 0 0) (Scenes.vec 0 0 1) (-3) 3)
              (Scenes.link
                 [ Scenes.joint (Scenes.revolute (Scenes.vec 1 0 0) (Scenes.vec 0 0 0) (-3) 3)
                     (Scenes.link []);
                   Scenes.joint (Scenes.revolute (Scenes.vec 0 1 0) (Scenes.vec 0 0 1) (-3) 3)
                     (Scenes.link [Scenes.joint (Scenes.fixed (Scenes.vec 1 0 0))
                                     (Scenes.link [])]) ])));
    reflexivity.
Defined.

(** C3 fails as stated: a description that branches, and whose second
    joint has the axis (0, 0, 0), is built without any error; the joint
    with that axis is the end effector, and its axis name is empty. *)
Lemma forked_builds_without_error :
  branches Scenes.forked = true /\
  exists chain : IKChain,
    @createFromURDF Ref.three Scenes.forked = Ok chain /\
    endEffector chain = Some 2%nat /\
    (axis <$> ikJoints chain !! 2%nat) = Some (Scenes.vec 0 0 0) /\
    (axisName <$> ikJoints chain !! 2%nat) = Some None.
Proof.
  split; [reflexivity|].
  eexists. split; [vm_compute; reflexivity|]. repeat split.
Qed.

(** ** The orchestrator with chain and target *)

Section OrchestratorProperties.
Context `{ThreeJS IKJoint}.

Lemma writeBack_quaternion (j : IKJoint) : quaternion (writeBack j) = quaternion j.
Proof. unfold writeBack. destruct (urdfJoint j); reflexivity. Qed.

(** Through [solve], write-back included, the orientation of every fixed
    joint and the target are as before. *)
Lemma solve_keeps (s s' : IKSolver) (c : IKChain) (t : Vector3) :
  ikChain s = Some c -> target s = Some t -> solve s = Ok s' ->
  target s' = Some t /\
  exists c', ikChain s' = Some c' /\
    forall i j, ikJoints c !! i = Some j -> isFixed j = true ->
      quaternion <$> ikJoints c' !! i = Some (quaternion j).
Proof.
  intros Hc Ht. unfold solve. rewrite Hc, Ht.
  pose proof (CCDIKSolver_keeps c t (_config s)) as Hk.
  destruct (CCDIKSolver c t (_config s)) as [[st it]|]; simpl; [|discriminate].
  destruct Hk as (Htarget & _ & Hfixed). simpl in *. intros [= <-]. simpl.
  split; [congruence|]. eexists. split; [reflexivity|].
  intros i j Hi Hfix. specialize (Hfixed i j Hi Hfix).
  destruct (updateURDFRobot (_config s)); simpl.
  - rewrite list_lookup_fmap, Hfixed. simpl. rewrite writeBack_quaternion. reflexivity.
  - rewrite Hfixed. reflexivity.
Qed.

End OrchestratorProperties.

(** ** The solver over the store of vectors *)

Lemma frame_refl (n0 : nat) (h : Heap) : frame n0 h h.
Proof. split; [lia | reflexivity]. Qed.

Lemma frame_trans (n0 : nat) (a b c : Heap) : frame n0 a b -> frame n0 b c -> frame n0 a c.
Proof.
  intros [Hn Hc] [Hn' Hc']. split; [lia|].
  intros r Hr. rewrite Hc', Hc by exact Hr. reflexivity.
Qed.

Section StoreProperties.
Context `{ThreeJS IKJoint}.

(** [worldToLocal] overwrites the vector it is given. *)
Lemma worldToLocal__in_place (js : list IKJoint) (i v : nat) (h : Heap) :
  exists h' : Heap,
    worldToLocal_ js i v h = Ok (v, h') /\
    cell h' v = worldToLocal js i (cell h v).
Proof.
  eexists. split; [reflexivity|]. cbn. rewrite Nat.eqb_refl. reflexivity.
Qed.

Lemma calcEndEffectorTargetDistance__run
    (e : nat) (js : list IKJoint) (targetPos n0 : nat) (h : Heap) :
  (n0 <= next h)%nat ->
  exists h' : Heap,
    calcEndEffectorTargetDistance_ e js targetPos h
      = Ok (calcEndEffectorTargetDistance e (mkScene js (cell h targetPos)), h') /\
    frame n0 h h'.
Proof.
  intros Hn. eexists. split.
  - unfold calcEndEffectorTargetDistance. run. refs. reflexivity.
  - split; cbn; [lia|]. intros r Hr. refs. reflexivity.
Qed.

Lemma aimAtTarget__run (e i : nat) (js : list IKJoint)
    (targetPos endEffectorWorldPos n0 : nat) (ikJoint : IKJoint) (h : Heap) :
  (targetPos < n0)%nat -> (n0 <= endEffectorWorldPos)%nat ->
  (endEffectorWorldPos < next h)%nat ->
  exists h' : Heap,
    aimAtTarget_ e i js targetPos endEffectorWorldPos ikJoint h
      = Ok (aimAtTarget e i (mkScene js (cell h targetPos)) ikJoint, h') /\
    frame n0 h h'.
Proof.
  intros Ht Hn He. eexists. split.
  - unfold aimAtTarget. run. refs. reflexivity.
  - split; cbn; [lia|]. intros r Hr. refs. reflexivity.
Qed.

Lemma correctAxis__run (jointAxisInverseQt n0 : nat) (ikJoint : IKJoint) (h : Heap) :
  (n0 <= jointAxisInverseQt)%nat ->
  exists h' : Heap,
    correctAxis_ jointAxisInverseQt ikJoint h = Ok (correctAxis ikJoint, h') /\
    frame n0 h h'.
Proof.
  intros Hn. unfold correctAxis_, correctAxis.
  destruct (isHinge ikJoint || isRootJoint ikJoint).
  - eexists. split; [run; refs; reflexivity|].
    split; cbn; [lia|]. intros r Hr. refs. reflexivity.
  - exists h. split; [reflexivity | apply frame_refl].
Qed.

(** The body of the [for] loop on the store is the body on values, run
    with the value of the target. *)
Lemma adjustJoint__run (e i : nat) (targetPos endEffectorWorldPos jointAxisInverseQt n0 : nat)
    (js : list IKJoint) (h : Heap) :
  (targetPos < n0)%nat -> (n0 <= endEffectorWorldPos)%nat ->
  (endEffectorWorldPos < next h)%nat -> (n0 <= jointAxisInverseQt)%nat ->
  exists h' : Heap,
    adjustJoint_ e i targetPos endEffectorWorldPos jointAxisInverseQt js h
      = (st' ← adjustJoint e i (mkScene js (cell h targetPos)); Ok (joints st', h')) /\
    frame n0 h h'.
Proof.
  intros Ht Hn He Hj. unfold adjustJoint_, adjustJoint. cbn [joints].
  destruct (js !! i) as [ikJoint|]; [|exists h; split; [reflexivity | apply frame_refl]].
  destruct (isFixed ikJoint); cbn [negb];
    [exists h; split; [reflexivity | apply frame_refl]|].
  destruct (aimAtTarget__run e i js targetPos endEffectorWorldPos n0 ikJoint h Ht Hn He)
    as (h1 & Haim & F1).
  destruct (correctAxis__run jointAxisInverseQt n0
              (aimAtTarget e i (mkScene js (cell h targetPos)) ikJoint) h1 Hj)
    as (h2 & Haxis & F2).
  exists h2. split; [|eapply frame_trans; eassumption].
  unfold mbind at 1, M_bind. rewrite Haim.
  unfold mbind at 1, M_bind. rewrite Haxis. reflexivity.
Qed.

Lemma forJoints__run (e n : nat) (targetPos endEffectorWorldPos jointAxisInverseQt n0 : nat)
    (js : list IKJoint) (h : Heap) :
  (targetPos < n0)%nat -> (n0 <= endEffectorWorldPos)%nat ->
  (endEffectorWorldPos < next h)%nat -> (n0 <= jointAxisInverseQt)%nat ->
  exists h' : Heap,
    forJoints_ e n targetPos endEffectorWorldPos jointAxisInverseQt js h
      = (st' ← forJoints e n (mkScene js (cell h targetPos)); Ok (joints st', h')) /\
    frame n0 h h'.
Proof.
  intros Ht Hn. revert js h. induction n as [|i IH]; intros js h He Hj.
  - exists h. split; [reflexivity | apply frame_refl].
  - destruct (adjustJoint__run e i targetPos endEffectorWorldPos jointAxisInverseQt n0
                js h Ht Hn He Hj) as (h1 & Hadj & F1).
    cbn [forJoints_ forJoints]. unfold mbind at 1, M_bind. rewrite Hadj.
    destruct (adjustJoint e i (mkScene js (cell h targetPos))) as [st1|err] eqn:Hst1;
      [|exists h; split; [reflexivity | apply frame_refl]].
    cbn.
    destruct (IH (joints st1) h1) as (h2 & Hfor & F2);
      [destruct F1; lia | exact Hj |].
    exists h2. split; [|eapply frame_trans; eassumption].
    rewrite Hfor. destruct F1 as [_ Hcell]. rewrite (Hcell targetPos Ht).
    apply adjustJoint_keeps in Hst1 as (Htarget & _). cbn in Htarget.
    rewrite <- Htarget. destruct st1; reflexivity.
Qed.

Lemma sweep__run (e : nat) (targetPos endEffectorWorldPos jointAxisInverseQt n0 : nat)
    (js : list IKJoint) (h : Heap) :
  (targetPos < n0)%nat -> (n0 <= endEffectorWorldPos)%nat ->
  (endEffectorWorldPos < next h)%nat -> (n0 <= jointAxisInverseQt)%nat ->
  exists h' : Heap,
    sweep_ e targetPos endEffectorWorldPos jointAxisInverseQt js h
      = (st' ← sweep e (mkScene js (cell h targetPos));
         Ok (joints st', calcEndEffectorTargetDistance e st', h')) /\
    frame n0 h h'.
Proof.
  intros Ht Hn He Hj. unfold sweep_, sweep. cbn [joints].
  destruct (forJoints__run e (length js - 1) targetPos endEffectorWorldPos
              jointAxisInverseQt n0 js h Ht Hn He Hj) as (h1 & Hfor & F1).
  unfold mbind at 1, M_bind. rewrite Hfor.
  destruct (forJoints e (length js - 1) (mkScene js (cell h targetPos)))
    as [st1|err] eqn:Hst1; [|exists h; split; [reflexivity | apply frame_refl]].
  cbn.
  destruct (calcEndEffectorTargetDistance__run e (joints st1) targetPos n0 h1)
    as (h2 & Hcalc & F2); [destruct F1; lia|].
  exists h2. split; [|eapply frame_trans; eassumption].
  unfold mbind at 1, M_bind. rewrite Hcalc. cbn.
  destruct F1 as [_ Hcell]. rewrite (Hcell targetPos Ht).
  apply forJoints_keeps in Hst1 as (Htarget & _). cbn in Htarget.
  rewrite <- Htarget. destruct st1; reflexivity.
Qed.

Lemma whileLoop__clause (e : nat) (config : IKConfig)
    (targetPos endEffectorWorldPos jointAxisInverseQt : nat)
    (js : list IKJoint) (d : number) (it : Z) (h : Heap) (b : bool)
    (Hb : Num.gt d (tolerance config) && (it <=? maxIterations config) = b) :
  whileLoop__unfold_clause_1 e config targetPos endEffectorWorldPos jointAxisInverseQt
      js d it (b ↾ Hb) h =
    if b
    then match sweep_ e targetPos endEffectorWorldPos jointAxisInverseQt js h with
         | Ok (js', d', h') =>
             whileLoop_ e config targetPos endEffectorWorldPos jointAxisInverseQt
               js' d' (it + 1) h'
         | Throw err => Throw err
         end
    else Ok (js, it, h).
Proof.
  destruct b; simpl; [|reflexivity].
  destruct (sweep_ e targetPos endEffectorWorldPos jointAxisInverseQt js h)
    as [[[js' d'] h']|]; reflexivity.
Qed.

(** The loop on the store, as written. *)
Lemma whileLoop__eq (e : nat) (config : IKConfig)
    (targetPos endEffectorWorldPos jointAxisInverseQt : nat)
    (js : list IKJoint) (d : number) (it : Z) (h : Heap) :
  whileLoop_ e config targetPos endEffectorWorldPos jointAxisInverseQt js d it h =
    if Num.gt d (tolerance config) && (it <=? maxIterations config)
    then match sweep_ e targetPos endEffectorWorldPos jointAxisInverseQt js h with
         | Ok (js', d', h') =>
             whileLoop_ e config targetPos endEffectorWorldPos jointAxisInverseQt
               js' d' (it + 1) h'
         | Throw err => Throw err
         end
    else Ok (js, it, h).
Proof.
  rewrite whileLoop__equation_1. unfold inspect. apply whileLoop__clause.
Qed.

(** The loop on the store returns what the loop on values returns, and
    leaves every object below [n0] alone. *)
Lemma whileLoop__run (e : nat) (config : IKConfig)
    (targetPos endEffectorWorldPos jointAxisInverseQt n0 : nat)
    (js : list IKJoint) (d : number) (it : Z) (h : Heap) :
  (targetPos < n0)%nat -> (n0 <= endEffectorWorldPos)%nat ->
  (endEffectorWorldPos < next h)%nat -> (n0 <= jointAxisInverseQt)%nat ->
  exists (js' : list IKJoint) (it' : Z) (h' : Heap),
    whileLoop_ e config targetPos endEffectorWorldPos jointAxisInverseQt js d it h
      = Ok (js', it', h') /\
    whileLoop e config (mkScene js (cell h targetPos)) d it
      = Ok (mkScene js' (cell h targetPos), it') /\
    frame n0 h h'.
Proof.
  intros Ht Hn. remember (Z.to_nat (maxIterations config + 1 - it)) as n eqn:Hm.
  revert js d it h Hm. induction n as [n IH] using lt_wf_ind. intros js d it h Hm He Hj.
  rewrite whileLoop__eq, whileLoop_eq.
  destruct (Num.gt d (tolerance config) && (it <=? maxIterations config)) eqn:Hc.
  - apply andb_prop in Hc as [_ Hle]. apply Z.leb_le in Hle.
    destruct (sweep__run e targetPos endEffectorWorldPos jointAxisInverseQt n0 js h
                Ht Hn He Hj) as (h1 & Hsw & F1).
    destruct (sweep_total e (mkScene js (cell h targetPos))) as [st1 Hst1].
    rewrite Hsw, Hst1. cbn.
    destruct (IH (Z.to_nat (maxIterations config + 1 - (it + 1))) ltac:(lia)
                (joints st1) (calcEndEffectorTargetDistance e st1) (it + 1) h1 eq_refl)
      as (js' & it' & h' & Hloop & Hval & F2); [destruct F1; lia | exact Hj |].
    exists js', it', h'. split; [exact Hloop|]. split; [|eapply frame_trans; eassumption].
    destruct F1 as [_ Hcell]. rewrite (Hcell targetPos Ht) in Hval.
    apply sweep_keeps in Hst1 as (Htarget & _). cbn in Htarget.
    rewrite <- Hval. f_equal. rewrite <- Htarget. destruct st1; reflexivity.
  - exists js, it, h. split; [reflexivity|]. split; [reflexivity | apply frame_refl].
Qed.

(** C9: the solver, called with the reference of a target point, returns
    with that point as it was, whatever the chain, the configuration and
    the number of passes; it writes to no vector that was there before
    the call.  It reads the target through [clone] only, and its result is
    that of the solver on the value of the target.  It throws only on a
    chain without end effector. *)
Theorem CCDIKSolver_target_read_only
    (chain : IKChain) (targetPos : nat) (config : IKConfig) (h : Heap) :
  (targetPos < next h)%nat ->
  match CCDIKSolver_ chain targetPos config h with
  | Ok (js, it, h') =>
      cell h' targetPos = cell h targetPos /\
      (forall r : nat, (r < next h)%nat -> cell h' r = cell h r) /\
      CCDIKSolver chain (cell h targetPos) config
        = Ok (mkScene js (cell h targetPos), it)
  | Throw _ => endEffector chain = None
  end.
Proof.
  intros Ht. unfold CCDIKSolver_, CCDIKSolver.
  destruct (endEffector chain) as [e|]; [|reflexivity].
  destruct (calcEndEffectorTargetDistance__run e (ikJoints chain) targetPos (next h) h)
    as (h1 & Hcalc & F1); [lia|].
  unfold mbind at 1, M_bind. rewrite Hcalc.
  unfold mbind at 1, M_bind, Vector3_new_, alloc at 1.
  unfold mbind at 1, M_bind, alloc at 1.
  cbn [next cell].
  set (h3 := mkHeap _ (S (S (next h1)))).
  assert (F3 : frame (next h) h1 h3).
  { destruct F1 as [Hnext _]. split; cbn; [lia|]. intros r Hr. refs. reflexivity. }
  destruct (whileLoop__run e config targetPos (next h1) (S (next h1)) (next h)
              (ikJoints chain)
              (calcEndEffectorTargetDistance e (mkScene (ikJoints chain) (cell h targetPos)))
              0 h3 Ht)
    as (js' & it' & h' & Hloop & Hval & F4);
    [destruct F1; lia | cbn; lia | destruct F1; lia |].
  rewrite Hloop.
  pose proof (frame_trans _ _ _ _ F1 (frame_trans _ _ _ _ F3 F4)) as [_ Hcell].
  split; [apply Hcell, Ht|]. split; [exact Hcell|].
  destruct F1 as [_ Hc1]. destruct F3 as [_ Hc3].
  rewrite (Hc3 targetPos Ht), (Hc1 targetPos Ht) in Hval. exact Hval.
Qed.

End StoreProperties.

(** With the target (1, 1, 0) as the one object of the store and the arm
    at rest, the solver returns with the target as it was. *)
Lemma CCDIKSolver_target_read_only_witness :
  (0 < next (mkHeap (fun _ => Scenes.vec 1 1 0) 1))%nat /\
  match @CCDIKSolver_ Ref.three Scenes.arm_chain 0
          (Scenes.config 1 3) (mkHeap (fun _ => Scenes.vec 1 1 0) 1) with
  | Ok (js, it, h') =>
      cell h' 0 = Scenes.vec 1 1 0 /\
      (forall r : nat, (r < 1)%nat -> cell h' r = Scenes.vec 1 1 0) /\
      @CCDIKSolver Ref.three Scenes.arm_chain (Scenes.vec 1 1 0) (Scenes.config 1 3)
        = Ok (mkScene js (Scenes.vec 1 1 0), it)
  | Throw _ => False
  end.
Proof.
  split; [simpl; lia|].
  pose proof (@CCDIKSolver_target_read_only Ref.three Scenes.arm_chain 0%nat
                (Scenes.config 1 3) (mkHeap (fun _ => Scenes.vec 1 1 0) 1)
                ltac:(simpl; lia)) as Hrun.
  destruct (@CCDIKSolver_ Ref.three Scenes.arm_chain 0
              (Scenes.config 1 3) (mkHeap (fun _ => Scenes.vec 1 1 0) 1))
    as [[[js it] h']|]; [exact Hrun | discriminate Hrun].
Defined.

(** Without [clone], [worldToLocal] on the reference of the target
    overwrites it: on the arm at rest, the target (1, 1, 0) taken into the
    frame of the end effector becomes (-1, 1, 0). *)
Lemma worldToLocal__on_target :
  match @worldToLocal_ Ref.three Scenes.arm_joints 3 0
          (mkHeap (fun _ => Scenes.vec 1 1 0) 1) with
  | Ok (_, h') => cell h' 0 = Scenes.vec (-1) 1 0
  | Throw _ => False
  end.
Proof. vm_compute. reflexivity. Qed.

(** * Further properties *)

(** ** What a pass touches *)

Section Frame.
Context `{ThreeJS IKJoint}.

Lemma set_quaternion_rest (q : Quaternion) (j : IKJoint) :
  urdfJoint (set_quaternion q j) = urdfJoint j /\
  position (set_quaternion q j) = position j.
Proof. split; reflexivity. Qed.

Lemma aimAtTarget_rest (e i : nat) (st : Scene) (j : IKJoint) :
  urdfJoint (aimAtTarget e i st j) = urdfJoint j /\
  position (aimAtTarget e i st j) = position j.
Proof. split; reflexivity. Qed.

Lemma correctAxis_rest (j : IKJoint) :
  urdfJoint (correctAxis j) = urdfJoint j /\ position (correctAxis j) = position j.
Proof. unfold correctAxis. destruct (_ || _); split; reflexivity. Qed.

Lemma clampToLimit_rest (j : IKJoint) :
  urdfJoint (clampToLimit j) = urdfJoint j /\ position (clampToLimit j) = position j.
Proof.
  rewrite clampToLimit_unfold.
  destruct (clampIKJointRotationAngle _ _).2; split; reflexivity.
Qed.

Lemma touches_below_refl (n : nat) (js : list IKJoint) : touches_below n js js.
Proof. repeat split; eauto. Qed.

Lemma touches_below_trans (n : nat) (a b c : list IKJoint) :
  touches_below n a b -> touches_below n b c -> touches_below n a c.
Proof.
  intros (Hl & Hr & Hu) (Hl' & Hr' & Hu'). repeat split.
  - congruence.
  - intros i j Hi. destruct (Hr i j Hi) as (j1 & Hi1 & Hu1 & Hp1).
    destruct (Hr' i j1 Hi1) as (j2 & Hi2 & Hu2 & Hp2).
    exists j2. repeat split; congruence.
  - intros i Hi. rewrite (Hu' i Hi). apply Hu, Hi.
Qed.

Lemma touches_below_mono (n m : nat) (js js' : list IKJoint) :
  (n <= m)%nat -> touches_below n js js' -> touches_below m js js'.
Proof.
  intros Hnm (Hl & Hr & Hu). repeat split; auto. intros i Hi. apply Hu. lia.
Qed.

Lemma adjustJoint_touches (e i : nat) (st st' : Scene) :
  adjustJoint e i st = Ok st' -> touches_below (S i) (joints st) (joints st').
Proof.
  unfold adjustJoint. destruct (joints st !! i) as [ikJoint|] eqn:Hi; [|discriminate].
  destruct (isFixed ikJoint); simpl; intros [= <-]; [apply touches_below_refl|].
  simpl. repeat split.
  - apply length_insert.
  - intros k j Hk. destruct (decide (i = k)) as [->|Hne].
    + eexists. split; [apply list_lookup_insert_eq; eapply lookup_lt_Some; eauto|].
      assert (j = ikJoint) as -> by congruence.
      destruct (clampToLimit_rest (correctAxis (aimAtTarget e k st ikJoint))) as [-> ->].
      destruct (correctAxis_rest (aimAtTarget e k st ikJoint)) as [-> ->].
      split; reflexivity.
    + exists j. rewrite list_lookup_insert_ne; auto.
  - intros k Hk. apply list_lookup_insert_ne. lia.
Qed.

Lemma forJoints_touches (e n : nat) (st st' : Scene) :
  forJoints e n st = Ok st' -> touches_below n (joints st) (joints st').
Proof.
  revert st. induction n as [|i IH]; simpl; intros st.
  - intros [= <-]. apply touches_below_refl.
  - destruct (adjustJoint e i st) as [st1|] eqn:Hadj; simpl; [|discriminate].
    intros Hrest. eapply touches_below_trans; [eapply adjustJoint_touches; eauto|].
    eapply touches_below_mono; [|eapply IH; eauto]. lia.
Qed.

Lemma sweep_touches (e : nat) (st st' : Scene) :
  sweep e st = Ok st' ->
  touches_below (length (joints st) - 1) (joints st) (joints st').
Proof. apply forJoints_touches. Qed.

Lemma sweeps_touches (e n : nat) (st st' : Scene) :
  sweeps e n st = Ok st' ->
  touches_below (length (joints st) - 1) (joints st) (joints st').
Proof.
  revert st. induction n as [|n IH]; simpl; intros st.
  - intros [= <-]. apply touches_below_refl.
  - destruct (sweep e st) as [st1|] eqn:Hs; simpl; [|discriminate].
    intros Hrest. pose proof (sweep_touches e st st1 Hs) as H1.
    eapply touches_below_trans; [exact H1|].
    destruct H1 as (Hl & _). rewrite <- Hl. eapply IH; eauto.
Qed.

(** The loop is a number of passes in a row: as many as the counter
    advances, each begun with the distance above the tolerance, at most
    up to [maxIterations + 1] on the counter, and stopped by the distance or
    by the counter. *)
Lemma whileLoop_run (e : nat) (config : IKConfig) (st : Scene) (it : Z) :
  exists (n : nat) (st' : Scene),
    whileLoop e config st (calcEndEffectorTargetDistance e st) it
      = Ok (st', it + Z.of_nat n) /\
    sweeps e n st = Ok st' /\
    Z.of_nat n <= Z.max 0 (maxIterations config + 1 - it) /\
    (forall (k : nat) (stk : Scene),
       (k < n)%nat -> sweeps e k st = Ok stk ->
       Num.gt (calcEndEffectorTargetDistance e stk) (tolerance config) = true) /\
    (Num.gt (calcEndEffectorTargetDistance e st') (tolerance config) = false \/
     maxIterations config < it + Z.of_nat n).
Proof.
  remember (Z.to_nat (maxIterations config + 1 - it)) as m eqn:Hm.
  revert st it Hm. induction m as [m IH] using lt_wf_ind. intros st it Hm.
  rewrite whileLoop_eq.
  destruct (Num.gt (calcEndEffectorTargetDistance e st) (tolerance config)) eqn:Hd;
    [destruct (it <=? maxIterations config) eqn:Hle|]; simpl.
  - apply Z.leb_le in Hle.
    destruct (sweep_total e st) as [st1 Hs]. rewrite Hs.
    destruct (IH (Z.to_nat (maxIterations config + 1 - (it + 1))) ltac:(lia)
                st1 (it + 1) eq_refl) as (n & st' & Hloop & Hsw & Hn & Hfar & Hstop).
    exists (S n), st'. repeat split.
    + rewrite Hloop. replace (it + 1 + Z.of_nat n) with (it + Z.of_nat (S n)) by lia.
      reflexivity.
    + simpl. rewrite Hs. exact Hsw.
    + lia.
    + intros k stk Hk Hk'. destruct k as [|k]; simpl in Hk'.
      * injection Hk' as <-. exact Hd.
      * rewrite Hs in Hk'. simpl in Hk'. apply (Hfar k); [lia | exact Hk'].
    + destruct Hstop as [Hstop | Hstop]; [left; exact Hstop | right; lia].
  - apply Z.leb_gt in Hle. exists 0%nat, st. repeat split.
    + replace (it + Z.of_nat 0) with it by lia. reflexivity.
    + lia.
    + intros k stk Hk. lia.
    + right. lia.
  - exists 0%nat, st. repeat split.
    + replace (it + Z.of_nat 0) with it by lia. reflexivity.
    + lia.
    + intros k stk Hk. lia.
    + left. exact Hd.
Qed.

End Frame.

Section SolverFurther.
Context `{ThreeJS IKJoint}.

(** X1: a solve changes orientations only.  After it the chain has as
    many joints as before, every joint has the URDF joint and the position
    it had, and the joints from the last index on (the end effector) are
    the same records. *)
Theorem CCDIKSolver_orientations_only
    (chain : IKChain) (target : Vector3) (config : IKConfig) :
  match CCDIKSolver chain target config with
  | Ok (st, _) =>
      length (joints st) = length (ikJoints chain) /\
      (forall i j, ikJoints chain !! i = Some j ->
         exists j', joints st !! i = Some j' /\
           urdfJoint j' = urdfJoint j /\ position j' = position j) /\
      (forall i, (length (ikJoints chain) - 1 <= i)%nat ->
         joints st !! i = ikJoints chain !! i)
  | Throw _ => endEffector chain = None
  end.
Proof.
  unfold CCDIKSolver. destruct (endEffector chain) as [e|]; [|reflexivity].
  destruct (whileLoop_run e config (mkScene (ikJoints chain) target) 0)
    as (n & st' & -> & Hsw & _).
  exact (sweeps_touches e n _ _ Hsw).
Qed.

(** X2: on a chain with an end effector the solver returns after some
    number [n] of passes, which is the final value of its counter: [n] is
    at most [maxIterations + 1] (and 0 when that is negative), every pass
    began with the distance above the tolerance, and at the end the
    distance is not above the tolerance or [n] exceeds [maxIterations]. *)
Theorem CCDIKSolver_run
    (chain : IKChain) (target : Vector3) (config : IKConfig) (e : nat) :
  endEffector chain = Some e ->
  exists (n : nat) (st : Scene),
    CCDIKSolver chain target config = Ok (st, Z.of_nat n) /\
    sweeps e n (mkScene (ikJoints chain) target) = Ok st /\
    Z.of_nat n <= Z.max 0 (maxIterations config + 1) /\
    (forall (k : nat) (stk : Scene),
       (k < n)%nat -> sweeps e k (mkScene (ikJoints chain) target) = Ok stk ->
       Num.gt (calcEndEffectorTargetDistance e stk) (tolerance config) = true) /\
    (Num.gt (calcEndEffectorTargetDistance e st) (tolerance config) = false \/
     maxIterations config < Z.of_nat n).
Proof.
  intros He. unfold CCDIKSolver. rewrite He.
  destruct (whileLoop_run e config (mkScene (ikJoints chain) target) 0)
    as (n & st' & Hloop & Hsw & Hn & Hfar & Hstop).
  exists n, st'. rewrite Hloop. repeat split; auto.
  replace (maxIterations config + 1) with (maxIterations config + 1 - 0) by lia.
  exact Hn.
Qed.

(** X3: with a negative [maxIterations], a tolerance that is NaN, or an
    initial distance that is NaN, the solver makes no pass and leaves the
    chain as it is. *)
Theorem CCDIKSolver_no_pass
    (chain : IKChain) (target : Vector3) (config : IKConfig) (e : nat) :
  endEffector chain = Some e ->
  maxIterations config < 0 \/
  Num.is_nan (tolerance config) = true \/
  Num.is_nan (calcEndEffectorTargetDistance e (mkScene (ikJoints chain) target)) = true ->
  CCDIKSolver chain target config = Ok (mkScene (ikJoints chain) target, 0).
Proof.
  intros He Hedge. unfold CCDIKSolver. rewrite He, whileLoop_eq.
  destruct Hedge as [Hmax | [Htol | Hd]].
  - replace (0 <=? maxIterations config) with false by (symmetry; apply Z.leb_gt; lia).
    rewrite andb_false_r. reflexivity.
  - destruct (tolerance config); try discriminate. reflexivity.
  - destruct (calcEndEffectorTargetDistance e _); try discriminate.
    unfold Num.gt. destruct (tolerance config); reflexivity.
Qed.

(** X4: when every joint before the last is fixed (in particular when
    the chain has at most one joint), a solve leaves all joints as they
    are, however many passes it counts. *)
Theorem CCDIKSolver_all_fixed
    (chain : IKChain) (target : Vector3) (config : IKConfig) :
  (forall i j, (i < length (ikJoints chain) - 1)%nat ->
     ikJoints chain !! i = Some j -> isFixed j = true) ->
  match CCDIKSolver chain target config with
  | Ok (st, _) => joints st = ikJoints chain
  | Throw _ => endEffector chain = None
  end.
Proof.
  intros Hfixed. unfold CCDIKSolver. destruct (endEffector chain) as [e|]; [|reflexivity].
  destruct (whileLoop_run e config (mkScene (ikJoints chain) target) 0)
    as (n & st' & -> & Hsw & _).
  pose proof (sweeps_touches e n _ _ Hsw) as (Hlen & _ & Hlast).
  pose proof (sweeps_keeps e n _ _ Hsw) as (_ & _ & Hkeep).
  simpl in *. apply list_eq. intros i.
  destruct (decide (length (ikJoints chain) - 1 <= i)%nat) as [Hi|Hi]; [auto|].
  destruct (ikJoints chain !! i) as [j|] eqn:Hj.
  - apply Hkeep; [exact Hj|]. apply (Hfixed i j); [lia | exact Hj].
  - apply lookup_ge_None in Hj. lia.
Qed.

(** X5: with a target but a chain that was never built (no end effector),
    the orchestrator does not skip the solve: it throws a TypeError. *)
Theorem solve_unbuilt_chain (s : IKSolver) (c : IKChain) (t : Vector3) :
  ikChain s = Some c -> target s = Some t -> endEffector c = None ->
  solve s = Throw TypeError.
Proof.
  intros Hc Ht He. unfold solve, CCDIKSolver. rewrite Hc, Ht, He. reflexivity.
Qed.

End SolverFurther.

Lemma CCDIKSolver_run_witness :
  exists (n : nat) (st : Scene),
    @CCDIKSolver Ref.three Scenes.arm_chain (Scenes.vec 1 1 0) (Scenes.config 1 3)
      = Ok (st, Z.of_nat n) /\
    @sweeps Ref.three 3 n (mkScene Scenes.arm_joints (Scenes.vec 1 1 0)) = Ok st /\
    Z.of_nat n <= Z.max 0 (3 + 1) /\
    (forall (k : nat) (stk : Scene),
       (k < n)%nat ->
       @sweeps Ref.three 3 k (mkScene Scenes.arm_joints (Scenes.vec 1 1 0)) = Ok stk ->
       Num.gt (@calcEndEffectorTargetDistance Ref.three 3 stk)
         (tolerance (Scenes.config 1 3)) = true) /\
    (Num.gt (@calcEndEffectorTargetDistance Ref.three 3 st)
       (tolerance (Scenes.config 1 3)) = false \/
     3 < Z.of_nat n).
Proof.
  exact (@CCDIKSolver_run Ref.three Scenes.arm_chain (Scenes.vec 1 1 0)
           (Scenes.config 1 3) 3%nat eq_refl).
Defined.

Lemma CCDIKSolver_no_pass_witness :
  maxIterations (Scenes.config 1 (-1)) < 0 /\
  @CCDIKSolver Ref.three Scenes.arm_chain (Scenes.vec 3 3 0) (Scenes.config 1 (-1))
    = Ok (mkScene Scenes.arm_joints (Scenes.vec 3 3 0), 0).
Proof.
  split; [reflexivity|].
  apply (@CCDIKSolver_no_pass Ref.three Scenes.arm_chain (Scenes.vec 3 3 0)
           (Scenes.config 1 (-1)) 3%nat eq_refl).
  left. reflexivity.
Defined.

Lemma CCDIKSolver_all_fixed_witness :
  match @CCDIKSolver Ref.three
          (mkIKChain [@IKJoint_new Ref.three (Some (Scenes.fixed (Scenes.vec 0 0 0)));
                      @IKJoint_new Ref.three (Some (Scenes.fixed (Scenes.vec 1 0 0)))]
             (Some 1%nat))
          (Scenes.vec 3 3 0) (Scenes.config 1 3) with
  | Ok (st, it) =>
      joints st = [@IKJoint_new Ref.three (Some (Scenes.fixed (Scenes.vec 0 0 0)));
                   @IKJoint_new Ref.three (Some (Scenes.fixed (Scenes.vec 1 0 0)))]
  | Throw _ => False
  end.
Proof.
  pose proof (@CCDIKSolver_all_fixed Ref.three
    (mkIKChain [@IKJoint_new Ref.three (Some (Scenes.fixed (Scenes.vec 0 0 0)));
                @IKJoint_new Ref.three (Some (Scenes.fixed (Scenes.vec 1 0 0)))]
       (Some 1%nat))
    (Scenes.vec 3 3 0) (Scenes.config 1 3)) as Hall.
  destruct (@CCDIKSolver Ref.three _ _ _) as [[st it]|].
  - apply Hall. intros i j Hi Hj. simpl in Hi.
    destruct i as [|i]; [|lia]. injection Hj as <-. reflexivity.
  - discriminate Hall.
    intros i j Hi Hj. simpl in Hi.
    destruct i as [|i]; [|lia]. injection Hj as <-. reflexivity.
Defined.

Lemma solve_unbuilt_chain_witness :
  @solve Ref.three
    (mkIKSolver (Some (@IKChain_new Ref.three)) (Some (Scenes.vec 1 1 0)) (Scenes.config 1 3))
    = Throw TypeError.
Proof.
  apply (@solve_unbuilt_chain Ref.three _ (@IKChain_new Ref.three) (Scenes.vec 1 1 0));
    reflexivity.
Defined.

(** ** Write-back *)

Section WriteBack.
Context `{ThreeJS IKJoint}.

Lemma solve_run (s s' : IKSolver) (c : IKChain) (t : Vector3) :
  ikChain s = Some c -> target s = Some t -> solve s = Ok s' ->
  exists st it,
    CCDIKSolver c t (_config s) = Ok (st, it) /\
    s' = mkIKSolver
           (Some (if updateURDFRobot (_config s)
                  then _updateURDFRobot (mkIKChain (joints st) (endEffector c))
                  else mkIKChain (joints st) (endEffector c)))
           (Some (targetPos st)) (_config s).
Proof.
  intros Hc Ht. unfold solve. rewrite Hc, Ht.
  destruct (CCDIKSolver c t (_config s)) as [[st it]|]; simpl; [|discriminate].
  intros [= <-]. exists st, it. split; reflexivity.
Qed.

(** X7: a solve with [updateURDFRobot] unset never writes to a URDF
    joint: every joint of the chain has the URDF joint it had, field for
    field. *)
Theorem solve_without_write_back (s s' : IKSolver) (c : IKChain) (t : Vector3) :
  ikChain s = Some c -> target s = Some t ->
  updateURDFRobot (_config s) = false ->
  solve s = Ok s' ->
  exists c' : IKChain,
    ikChain s' = Some c' /\
    _config s' = _config s /\
    length (ikJoints c') = length (ikJoints c) /\
    forall i j, ikJoints c !! i = Some j ->
      exists j', ikJoints c' !! i = Some j' /\ urdfJoint j' = urdfJoint j.
Proof.
  intros Hc Ht Hwb Hs.
  destruct (solve_run s s' c t Hc Ht Hs) as (st & it & Hrun & ->).
  rewrite Hwb. eexists. split; [reflexivity|]. split; [reflexivity|]. simpl.
  unfold CCDIKSolver in Hrun. destruct (endEffector c) as [e|]; [|discriminate].
  destruct (whileLoop_run e (_config s) (mkScene (ikJoints c) t) 0)
    as (n & st' & Hloop & Hsw & _).
  rewrite Hloop in Hrun. injection Hrun as <- _.
  destruct (sweeps_touches e n _ _ Hsw) as (Hl & Hrest & _). simpl in *.
  split; [exact Hl|]. intros i j Hj.
  destruct (Hrest i j Hj) as (j' & Hj' & Hu & _). eauto.
Qed.

(** X8: write-back changes nothing the solver reads of a joint (its
    orientation, position, axis, axis name, limit and kind), and writing
    back twice is writing back once. *)
Theorem writeBack_transparent (j : IKJoint) (c : IKChain) :
  quaternion (writeBack j) = quaternion j /\
  position (writeBack j) = position j /\
  axis (writeBack j) = axis j /\
  axisName (writeBack j) = axisName j /\
  limit (writeBack j) = limit j /\
  isFixed (writeBack j) = isFixed j /\
  isHinge (writeBack j) = isHinge j /\
  isRootJoint (writeBack j) = isRootJoint j /\
  _updateURDFRobot (_updateURDFRobot c) = _updateURDFRobot c.
Proof.
  assert (Hj : forall k : IKJoint,
             quaternion (writeBack k) = quaternion k /\
             position (writeBack k) = position k /\
             axis (writeBack k) = axis k /\
             limit (writeBack k) = limit k /\
             isFixed (writeBack k) = isFixed k /\
             isHinge (writeBack k) = isHinge k /\
             isRootJoint (writeBack k) = isRootJoint k /\
             writeBack (writeBack k) = writeBack k).
  { intros [[u|] p q]; repeat split. }
  destruct (Hj j) as (Hq & Hp & Ha & Hl & Hf & Hh & Hr & _).
  repeat split; auto.
  - unfold axisName. rewrite Ha. reflexivity.
  - unfold _updateURDFRobot. simpl. f_equal.
    rewrite <- list_fmap_compose. apply list_fmap_ext.
    intros i k _. simpl. apply Hj.
Qed.

End WriteBack.

Lemma solve_without_write_back_witness :
  exists s' : IKSolver,
    @solve Ref.three
      (mkIKSolver (Some Scenes.arm_chain) (Some (Scenes.vec 1 1 0)) (Scenes.config 1 3))
      = Ok s' /\
    exists c' : IKChain,
      ikChain s' = Some c' /\
      exists j', ikJoints c' !! 2%nat = Some j' /\
        urdfJoint j' = Some (Scenes.revolute (Scenes.vec 1 0 0) (Scenes.vec 0 0 1) (-3) 3).
Proof.
  destruct (@solve Ref.three
      (mkIKSolver (Some Scenes.arm_chain) (Some (Scenes.vec 1 1 0)) (Scenes.config 1 3)))
    as [s'|] eqn:Hs; [|vm_compute in Hs; discriminate Hs].
  exists s'. split; [reflexivity|].
  destruct (@solve_without_write_back Ref.three
              (mkIKSolver (Some Scenes.arm_chain) (Some (Scenes.vec 1 1 0))
                 (Scenes.config 1 3))
              s' Scenes.arm_chain (Scenes.vec 1 1 0) eq_refl eq_refl eq_refl Hs)
    as (c' & Hc' & _ & _ & Hj).
  exists c'. split; [exact Hc'|].
  exact (Hj 2%nat _ eq_refl).
Defined.

(** ** Write-back through shared URDF joints *)

Section SharedProperties.
Context `{ThreeJS IKJoint}.

(** A write replaces what an earlier write left. *)
Lemma copyQuaternion_twice (q q' : Quaternion) (u : URDFJoint) :
  copyQuaternion q (copyQuaternion q' u) = copyQuaternion q u.
Proof. reflexivity. Qed.

(** One write, seen from the URDF joint [k]. *)
Lemma writeThrough_lookup (robot : list URDFJoint) (x : option nat * IKJoint) (k : nat) :
  writeThrough robot x !! k =
    if decide (x.1 = Some k) then copyQuaternion (quaternion x.2) <$> robot !! k
    else robot !! k.
Proof.
  unfold writeThrough. destruct x as [[k'|] j]; simpl.
  - destruct (decide (Some k' = Some k)) as [[= ->]|Hne].
    + apply list_lookup_alter_eq.
    + apply list_lookup_alter_ne. congruence.
  - destruct (decide (None = Some k)); [discriminate | reflexivity].
Qed.

(** Writes of joints that do not refer to [k] leave it as it is. *)
Lemma writes_elsewhere (l : list (option nat * IKJoint)) (robot : list URDFJoint) (k : nat) :
  (forall i x, l !! i = Some x -> x.1 <> Some k) ->
  fold_left writeThrough l robot !! k = robot !! k.
Proof.
  revert robot. induction l as [|x l IH]; intros robot Hl; [reflexivity|].
  simpl. rewrite IH by (intros i y Hy; apply (Hl (S i) y Hy)).
  rewrite writeThrough_lookup.
  destruct (decide (x.1 = Some k)) as [Hx|]; [|reflexivity].
  destruct (Hl 0%nat x eq_refl Hx).
Qed.

(** The write of the last joint that refers to [k] is the one that
    stays. *)
Lemma last_write (l : list (option nat * IKJoint)) (robot : list URDFJoint)
    (i k : nat) (j : IKJoint) :
  l !! i = Some (Some k, j) ->
  (forall i' x, (i < i')%nat -> l !! i' = Some x -> x.1 <> Some k) ->
  fold_left writeThrough l robot !! k = copyQuaternion (quaternion j) <$> robot !! k.
Proof.
  revert robot i. induction l as [|x l IH]; intros robot i Hi Hlater; [discriminate Hi|].
  simpl. destruct i as [|i].
  - injection Hi as ->.
    rewrite writes_elsewhere by (intros i y Hy; apply (Hlater (S i) y); [lia | exact Hy]).
    rewrite writeThrough_lookup. simpl.
    destruct (decide (Some k = Some k)); [reflexivity | congruence].
  - rewrite (IH _ i Hi) by (intros i' y Hi' Hy; apply (Hlater (S i') y); [lia | exact Hy]).
    rewrite writeThrough_lookup.
    destruct (decide (x.1 = Some k)); [|reflexivity].
    destruct (robot !! k); reflexivity.
Qed.

(** Writes change the orientation of a URDF joint only, and make or drop
    no URDF joint. *)
Lemma writes_static (l : list (option nat * IKJoint)) (robot : list URDFJoint) (k : nat) :
  urdf_static <$> fold_left writeThrough l robot !! k = urdf_static <$> robot !! k.
Proof.
  revert robot. induction l as [|x l IH]; intros robot; [reflexivity|].
  simpl. rewrite IH, writeThrough_lookup.
  destruct (decide (x.1 = Some k)); [|reflexivity].
  destruct (robot !! k); reflexivity.
Qed.

Lemma lookup_zip (refs : list (option nat)) (js : list IKJoint) (i : nat)
    (x : option nat * IKJoint) :
  zip refs js !! i = Some x -> refs !! i = Some x.1 /\ js !! i = Some x.2.
Proof.
  revert js i. induction refs as [|r refs IH]; intros [|j js] [|i]; simpl;
    try discriminate.
  - intros [= <-]. split; reflexivity.
  - apply IH.
Qed.

Lemma zip_lookup (refs : list (option nat)) (js : list IKJoint) (i : nat)
    (r : option nat) (j : IKJoint) :
  refs !! i = Some r -> js !! i = Some j -> zip refs js !! i = Some (r, j).
Proof.
  revert js i. induction refs as [|r' refs IH]; intros [|j' js] [|i]; simpl;
    try discriminate.
  - intros [= ->] [= ->]. reflexivity.
  - apply IH.
Qed.

(** X6: write-back writes through the references to the URDF joints.  A
    URDF joint holds, after it, the orientation of the last joint of the
    chain that was made from it (as quaternion, and as the Euler angles
    three.js derives from it): where two joints were made from one URDF
    joint, the later one wins.  Every URDF joint keeps its position, axis,
    limit and type, and a URDF joint that no joint of the chain refers to
    is as it was. *)
Theorem write_back_last_wins
    (refs : list (option nat)) (js : list IKJoint) (robot : list URDFJoint)
    (i k : nat) (j : IKJoint) :
  refs !! i = Some (Some k) ->
  js !! i = Some j ->
  (forall i', (i < i')%nat -> refs !! i' <> Some (Some k)) ->
  _updateURDFRobot_ refs js robot !! k = copyQuaternion (quaternion j) <$> robot !! k /\
  (forall u', _updateURDFRobot_ refs js robot !! k = Some u' ->
     u_quaternion u' = quaternion j /\
     u_rotation u' = setFromQuaternion (quaternion j)) /\
  (forall k', urdf_static <$> _updateURDFRobot_ refs js robot !! k'
              = urdf_static <$> robot !! k') /\
  (forall k', (forall i', refs !! i' <> Some (Some k')) ->
     _updateURDFRobot_ refs js robot !! k' = robot !! k').
Proof.
  intros Hr Hj Hlater. unfold _updateURDFRobot_.
  assert (Hk : fold_left writeThrough (zip refs js) robot !! k
               = copyQuaternion (quaternion j) <$> robot !! k).
  { apply (last_write _ _ i); [apply zip_lookup; assumption|].
    intros i' x Hi' Hx Hk. apply lookup_zip in Hx as [Hx _].
    apply (Hlater i' Hi'). rewrite Hx, Hk. reflexivity. }
  split; [exact Hk|]. split; [|split].
  - intros u' Hu'. rewrite Hk in Hu'.
    destruct (robot !! k); [|discriminate Hu'].
    injection Hu' as <-. split; reflexivity.
  - intros k'. apply writes_static.
  - intros k' Hnone. apply writes_elsewhere.
    intros i' x Hx Hk'. apply lookup_zip in Hx as [Hx _].
    apply (Hnone i'). rewrite Hx, Hk'. reflexivity.
Qed.

(** X24: where no two joints of the chain were made from one URDF joint,
    write-back on joints that hold their URDF joint by value is write-back
    through the references: if every joint shows the URDF joint it refers
    to before the two, it does so after them. *)
Theorem write_back_unshared
    (refs : list (option nat)) (c : IKChain) (robot : list URDFJoint) :
  unshared refs ->
  shows robot refs (ikJoints c) ->
  shows (_updateURDFRobot_ refs (ikJoints c) robot) refs (ikJoints (_updateURDFRobot c)).
Proof.
  intros Hun Hshows. unfold shows in *. simpl.
  apply Forall2_same_length_lookup in Hshows as [Hlen Hshows].
  apply Forall2_same_length_lookup. split; [rewrite length_fmap; exact Hlen|].
  intros i r j' Hr Hj'. rewrite list_lookup_fmap in Hj'.
  destruct (ikJoints c !! i) as [j|] eqn:Hj; [|discriminate Hj'].
  injection Hj' as <-. specialize (Hshows i r j Hr Hj).
  destruct r as [k|]; simpl in *.
  - unfold _updateURDFRobot_.
    rewrite (last_write _ _ i k j).
    + unfold writeBack. destruct (urdfJoint j) as [u|] eqn:Hu; rewrite <- Hshows; simpl;
        [reflexivity | exact Hu].
    + apply zip_lookup; assumption.
    + intros i' x Hi' Hx Hk. apply lookup_zip in Hx as [Hx _].
      rewrite Hk in Hx. pose proof (Hun i i' k Hr Hx). lia.
  - unfold writeBack. rewrite Hshows. exact Hshows.
Qed.

End SharedProperties.

(** On the chain built twice from one robot, the first URDF joint holds
    after write-back the orientation of the second joint made from it, not
    that of the first. *)
Lemma write_back_last_wins_witness :
  MoreScenes.twice_refs !! 4%nat = Some (Some 0%nat) /\
  u_quaternion <$>
    @_updateURDFRobot_ Ref.three MoreScenes.twice_refs MoreScenes.twice_joints
      MoreScenes.robot_joints !! 0%nat
    = quaternion <$> MoreScenes.twice_joints !! 4%nat /\
  u_quaternion <$>
    @_updateURDFRobot_ Ref.three MoreScenes.twice_refs MoreScenes.twice_joints
      MoreScenes.robot_joints !! 0%nat
    <> quaternion <$> MoreScenes.twice_joints !! 1%nat.
Proof.
  split; [reflexivity|].
  destruct (@write_back_last_wins Ref.three MoreScenes.twice_refs MoreScenes.twice_joints
              MoreScenes.robot_joints 4%nat 0%nat _ eq_refl eq_refl) as (Hk & _).
  { intros i' Hi'. do 5 (destruct i' as [|i']; [lia|]).
    destruct i' as [|i']; discriminate. }
  rewrite Hk. split; [reflexivity | vm_compute; discriminate].
Defined.

Lemma write_back_unshared_witness :
  unshared MoreScenes.arm_refs /\
  shows MoreScenes.arm_robot MoreScenes.arm_refs (ikJoints Scenes.arm_chain) /\
  shows (@_updateURDFRobot_ Ref.three MoreScenes.arm_refs (ikJoints Scenes.arm_chain)
           MoreScenes.arm_robot)
    MoreScenes.arm_refs (ikJoints (@_updateURDFRobot Ref.three Scenes.arm_chain)).
Proof.
  assert (Hun : unshared MoreScenes.arm_refs).
  { intros i i' k.
    destruct i as [|[|[|[|i]]]], i' as [|[|[|[|i']]]]; intros Hi Hi';
      vm_compute in Hi, Hi'; congruence. }
  assert (Hsh : shows MoreScenes.arm_robot MoreScenes.arm_refs (ikJoints Scenes.arm_chain)).
  { repeat constructor. }
  split; [exact Hun|]. split; [exact Hsh|].
  apply (@write_back_unshared Ref.three _ Scenes.arm_chain _ Hun Hsh).
Defined.

(** ** Joints *)

(** X9: the axis name is the first of x, y, z whose coordinate of the axis
    is truthy (neither zero nor NaN); it is empty exactly when none is.  So
    the divisor of the angle quotient is never zero or NaN under a
    non-empty axis name. *)
Theorem axisName_first_truthy (j : IKJoint) :
  match axisName j with
  | Some axis_x => truthy (vx (axis j)) = true
  | Some axis_y => truthy (vx (axis j)) = false /\ truthy (vy (axis j)) = true
  | Some axis_z =>
      truthy (vx (axis j)) = false /\ truthy (vy (axis j)) = false /\
      truthy (vz (axis j)) = true
  | None =>
      truthy (vx (axis j)) = false /\ truthy (vy (axis j)) = false /\
      truthy (vz (axis j)) = false
  end /\
  (forall a, axisName j = Some a ->
     Num.is_nan (component a (axis j)) = false /\
     Num.eq (component a (axis j)) Num.zero = false).
Proof.
  assert (Hnz : forall x : number,
             truthy x = true -> Num.is_nan x = false /\ Num.eq x Num.zero = false).
  { intros [s|s| |s m e]; simpl; try discriminate; intros _; split; try reflexivity;
      destruct s; reflexivity. }
  unfold axisName, entries. simpl.
  destruct (truthy (vx (axis j))) eqn:Hx; simpl.
  - split; [reflexivity|]. intros a [= <-]. apply Hnz, Hx.
  - destruct (truthy (vy (axis j))) eqn:Hy; simpl.
    + split; [auto|]. intros a [= <-]. apply Hnz, Hy.
    + destruct (truthy (vz (axis j))) eqn:Hz; simpl.
      * split; [auto|]. intros a [= <-]. apply Hnz, Hz.
      * split; [auto|]. intros a Ha. discriminate Ha.
Qed.

(** X10: the kinds of a joint exclude each other: a hinge is not fixed, and
    neither is a root joint; a root joint (one without URDF joint) has the
    default axis (0, 1, 0), the axis name y and the limit
    [{lower: 0, upper: 0}]. *)
Theorem joint_kinds (j : IKJoint) :
  (isHinge j = true -> isFixed j = false /\ isRootJoint j = false) /\
  (isFixed j = true -> isHinge j = false /\ isRootJoint j = false) /\
  (isRootJoint j = true ->
     urdfJoint j = None /\ isHinge j = false /\ isFixed j = false /\
     axis j = DEFAULT_AXIS /\ axisName j = Some axis_y /\
     limit j = mkJointLimit (Num.of_Z 0) (Num.of_Z 0)).
Proof.
  unfold isHinge, isFixed, isRootJoint, hasJointType, axisName, axis, limit.
  destruct (urdfJoint j) as [u|]; simpl.
  - split; [|split].
    + intros Hh. apply String.eqb_eq in Hh. rewrite Hh. split; reflexivity.
    + intros Hf. apply String.eqb_eq in Hf. rewrite Hf. split; reflexivity.
    + discriminate.
  - repeat split; discriminate.
Qed.

(** ** The clamping helper *)

Lemma le_lt_trans (a b c : number) :
  Num.le a b = true -> Num.lt b c = true -> Num.lt a c = true.
Proof.
  unfold Num.lt, Num.le, SFltb, SFleb.
  destruct a as [sa|sa| |sa ma ea], b as [sb|sb| |sb mb eb], c as [sc|sc| |sc mc ec];
    simpl; try discriminate; try reflexivity;
    repeat match goal with s : bool |- _ => destruct s end;
    simpl; try discriminate; try reflexivity;
    rewrite ?Pos.compare_cont_spec; simpl;
    repeat match goal with
      | |- context [(?x ?= ?y)%Z] => destruct (Z.compare_spec x y)
      | |- context [(?x ?= ?y)%positive] => destruct (Pos.compare_spec x y)
      end; simpl; try discriminate; try reflexivity; try lia.
Qed.

(** X11: for a limit with [lower <= upper], clamping is idempotent: the
    angle the helper returns is returned again, unflagged, when it is
    clamped a second time. *)
Theorem clampIKJointRotationAngle_idempotent (a : number) (l : JointLimit) :
  Num.le (lower l) (upper l) = true ->
  clampIKJointRotationAngle (clampIKJointRotationAngle a l).1 l
    = ((clampIKJointRotationAngle a l).1, false).
Proof.
  intros Hlu. destruct (le_not_nan _ _ Hlu) as [Hl Hu].
  destruct (Num.lt a (lower l)) eqn:Hlt; [|destruct (Num.gt a (upper l)) eqn:Hgt].
  - rewrite (clamp_below _ _ Hlt). simpl. apply clamp_within.
    + apply le_not_lt, le_refl, Hl.
    + apply le_not_lt, Hlu.
  - rewrite (clamp_above _ _ Hlt Hgt). simpl. apply clamp_within.
    + apply le_not_lt, Hlu.
    + apply le_not_lt, le_refl, Hu.
  - rewrite (clamp_within _ _ Hlt Hgt). simpl. apply clamp_within; assumption.
Qed.

Lemma clampIKJointRotationAngle_idempotent_witness :
  Num.le (Scenes.num (-3)) (Scenes.num 3) = true /\
  clampIKJointRotationAngle
    (clampIKJointRotationAngle (Scenes.num 5) (mkJointLimit (Scenes.num (-3)) (Scenes.num 3))).1
    (mkJointLimit (Scenes.num (-3)) (Scenes.num 3))
  = (Scenes.num 3, false).
Proof.
  split; [reflexivity|].
  exact (clampIKJointRotationAngle_idempotent (Scenes.num 5)
           (mkJointLimit (Scenes.num (-3)) (Scenes.num 3)) eq_refl).
Defined.

(** X12: for a limit with [lower <= upper], clamping keeps the order of
    angles: of two angles with [a <= b], the clamped first is at most the
    clamped second. *)
Theorem clampIKJointRotationAngle_monotone (a b : number) (l : JointLimit) :
  Num.le (lower l) (upper l) = true ->
  Num.le a b = true ->
  Num.le (clampIKJointRotationAngle a l).1 (clampIKJointRotationAngle b l).1 = true.
Proof.
  intros Hlu Hab.
  destruct (le_not_nan _ _ Hlu) as [Hl Hu]. destruct (le_not_nan _ _ Hab) as [Ha Hb].
  destruct (Num.lt a (lower l)) eqn:Halt; [|destruct (Num.gt a (upper l)) eqn:Hagt].
  - rewrite (clamp_below _ _ Halt). simpl.
    destruct (Num.lt b (lower l)) eqn:Hblt; [|destruct (Num.gt b (upper l)) eqn:Hbgt].
    + rewrite (clamp_below _ _ Hblt). apply le_refl, Hl.
    + rewrite (clamp_above _ _ Hblt Hbgt). exact Hlu.
    + rewrite (clamp_within _ _ Hblt Hbgt). apply not_lt_le; assumption.
  - rewrite (clamp_above _ _ Halt Hagt). simpl.
    assert (Hbgt : Num.gt b (upper l) = true) by (apply (lt_le_trans _ a); assumption).
    assert (Hblt : Num.lt b (lower l) = false).
    { destruct (Num.lt b (lower l)) eqn:Hblt; [|reflexivity].
      pose proof (lt_gt_false _ _ (lt_le_trans _ _ _ Hblt Hlu)) as Hc.
      unfold Num.gt, Num.lt in *. rewrite Hbgt in Hc. discriminate Hc. }
    rewrite (clamp_above _ _ Hblt Hbgt). apply le_refl, Hu.
  - rewrite (clamp_within _ _ Halt Hagt). simpl.
    destruct (Num.lt b (lower l)) eqn:Hblt; [|destruct (Num.gt b (upper l)) eqn:Hbgt].
    + pose proof (le_lt_trans _ _ _ Hab Hblt) as Hc.
      unfold Num.lt in *. rewrite Halt in Hc. discriminate Hc.
    + rewrite (clamp_above _ _ Hblt Hbgt). apply not_gt_le; assumption.
    + rewrite (clamp_within _ _ Hblt Hbgt). exact Hab.
Qed.

Lemma clampIKJointRotationAngle_monotone_witness :
  Num.le (Scenes.num (-3)) (Scenes.num 3) = true /\
  Num.le (Scenes.num (-5)) (Scenes.num 1) = true /\
  Num.le
    (clampIKJointRotationAngle (Scenes.num (-5))
       (mkJointLimit (Scenes.num (-3)) (Scenes.num 3))).1
    (clampIKJointRotationAngle (Scenes.num 1)
       (mkJointLimit (Scenes.num (-3)) (Scenes.num 3))).1 = true.
Proof.
  split; [reflexivity|]. split; [reflexivity|].
  exact (clampIKJointRotationAngle_monotone (Scenes.num (-5)) (Scenes.num 1)
           (mkJointLimit (Scenes.num (-3)) (Scenes.num 3)) eq_refl eq_refl).
Defined.

(** ** More on building the chain *)

Section BuildFurther.
Context `{ThreeJS IKJoint}.

Lemma _nextURDFJoint_found (parent n : Object3D) :
  _nextURDFJoint parent = Ok (Some n) ->
  isURDFJoint n = true /\ (size n < size parent)%nat.
Proof.
  destruct parent as [u [|[l gcs] cs]]; [discriminate|].
  unfold _nextURDFJoint. simpl. intros [= Hfind].
  apply List.find_some in Hfind as [Hin Hj]. split; [exact Hj|].
  clear -Hin. induction gcs as [|c gcs IH]; [destruct Hin|].
  simpl. destruct Hin as [-> | Hin]; [lia|]. specialize (IH Hin). lia.
Qed.

Lemma find_base_followed (cs : list Object3D) (base : Object3D) :
  find_base cs = Ok (Some base) ->
  In base cs /\ isURDFJoint base = true /\
  exists n, _nextURDFJoint base = Ok (Some n).
Proof.
  induction cs as [|c cs IH]; simpl; [discriminate|].
  destruct (isURDFJoint c) eqn:Hc.
  - destruct (_nextURDFJoint c) as [[n|]|] eqn:Hn; simpl; [| |discriminate].
    + intros [= ->]. eauto.
    + intros Hb. destruct (IH Hb) as (? & ? & ?). auto.
  - intros Hb. destruct (IH Hb) as (? & ? & ?). auto.
Qed.

(** The joints made by a traversal that starts at a URDF joint: each is
    made from a URDF joint, there is at least one, and at least two when the
    start is followed by a joint. *)
Lemma _traverseURDFJoints_made (u : Object3D) (made : list IKJoint) :
  isURDFJoint u = true ->
  _traverseURDFJoints u = Ok made ->
  Forall (fun j => exists d, j = IKJoint_new (Some d)) made /\
  (1 <= length made)%nat /\
  (forall n, _nextURDFJoint u = Ok (Some n) -> (2 <= length made)%nat).
Proof.
  remember (size u) as k eqn:Hk. revert u made Hk.
  induction k as [k IH] using lt_wf_ind. intros u made Hk Hj.
  rewrite _traverseURDFJoints_eq.
  assert (Hd : exists d, node_urdf u = Some d).
  { unfold isURDFJoint in Hj. destruct (node_urdf u); [eauto|discriminate]. }
  destruct Hd as [d Hd]. rewrite Hd.
  destruct (_nextURDFJoint u) as [[n|]|] eqn:Hn; [| |discriminate].
  - destruct (_nextURDFJoint_found u n Hn) as [Hjn Hsize].
    destruct (_traverseURDFJoints n) as [rest|] eqn:Hrest; simpl; [|discriminate].
    intros [= <-].
    destruct (IH (size n) ltac:(lia) n rest eq_refl Hjn Hrest) as (Hall & Hlen & _).
    split; [constructor; eauto|]. simpl. split; [lia|]. intros _ _. lia.
  - intros [= <-]. split; [repeat constructor; eauto|]. simpl. split; [lia|].
    intros n' Hn'. discriminate Hn'.
Qed.

(** X13: whenever building returns a chain, the chain has at least three
    joints; its first joint is the root joint, every other joint is made
    from a URDF joint, of which it has the position and the orientation, and
    the end effector is the last joint. *)
Theorem createFromURDF_shape (robot : Object3D) (chain : IKChain) :
  createFromURDF robot = Ok chain ->
  (3 <= length (ikJoints chain))%nat /\
  endEffector chain = Some (length (ikJoints chain) - 1)%nat /\
  ikJoints chain !! 0%nat = Some (IKJoint_new None) /\
  forall i j, (0 < i)%nat -> ikJoints chain !! i = Some j ->
    exists d, urdfJoint j = Some d /\
      position j = u_position d /\
      quaternion j = setFromEuler (u_rotation d) /\
      isRootJoint j = false.
Proof.
  unfold createFromURDF, _baseURDFJoint.
  destruct (find_base (children robot)) as [[base|]|] eqn:Hb; simpl; try discriminate.
  destruct (find_base_followed _ _ Hb) as (_ & Hj & n & Hn).
  destruct (_traverseURDFJoints base) as [made|] eqn:Hm; simpl; [|discriminate].
  intros [= <-]. simpl.
  destruct (_traverseURDFJoints_made base made Hj Hm) as (Hall & _ & Hlen).
  specialize (Hlen n Hn).
  split; [lia|]. split; [f_equal; lia|]. split; [reflexivity|].
  intros i j Hi Hij. destruct i as [|i]; [lia|]. simpl in Hij.
  apply list_elem_of_lookup_2 in Hij.
  rewrite Forall_forall in Hall. destruct (Hall j Hij) as [d ->].
  exists d. repeat split.
Qed.

Lemma find_base_none (cs : list Object3D) :
  (forall c, In c cs -> isURDFJoint c = true ->
     exists first rest,
       children c = first :: rest /\ List.find isURDFJoint (children first) = None) ->
  find_base cs = Ok None.
Proof.
  induction cs as [|c cs IH]; intros Hall; simpl; [reflexivity|].
  destruct (isURDFJoint c) eqn:Hc.
  - destruct (Hall c (or_introl eq_refl) Hc) as (first & rest & Hcs & Hnone).
    unfold _nextURDFJoint. rewrite Hcs, Hnone. simpl.
    apply IH. intros c' Hin. apply Hall. right. exact Hin.
  - apply IH. intros c' Hin. apply Hall. right. exact Hin.
Qed.

(** X14: a robot none of whose joints is followed by a further joint (a
    robot without joints, or with single joints only) cannot be built:
    [createFromURDF] throws a TypeError. *)
Theorem createFromURDF_needs_two_joints (robot : Object3D) :
  (forall c, In c (children robot) -> isURDFJoint c = true ->
     exists first rest,
       children c = first :: rest /\ List.find isURDFJoint (children first) = None) ->
  createFromURDF robot = Throw TypeError.
Proof.
  intros Hall. unfold createFromURDF, _baseURDFJoint.
  rewrite (find_base_none _ Hall). reflexivity.
Qed.

End BuildFurther.

Lemma createFromURDF_shape_witness :
  @createFromURDF Ref.three Scenes.arm = Ok Scenes.arm_chain /\
  (3 <= length (ikJoints Scenes.arm_chain))%nat /\
  endEffector Scenes.arm_chain = Some 3%nat.
Proof.
  assert (Hb : @createFromURDF Ref.three Scenes.arm = Ok Scenes.arm_chain)
    by (vm_compute; reflexivity).
  split; [exact Hb|].
  destruct (@createFromURDF_shape Ref.three Scenes.arm Scenes.arm_chain Hb)
    as (Hlen & He & _).
  split; [exact Hlen | exact He].
Defined.

Lemma createFromURDF_needs_two_joints_witness :
  @createFromURDF Ref.three MoreScenes.single = Throw TypeError.
Proof.
  apply (@createFromURDF_needs_two_joints Ref.three MoreScenes.single).
  intros c [<- | []] _. eexists _, _. split; reflexivity.
Defined.

(** ** The lazy joint list *)

Section ChainObjectProperties.
Context `{ThreeJS IKJoint}.

Lemma collect_nest (made : list IKJoint) : List.flat_map collect (nest made) = made.
Proof.
  induction made as [|j rest IH]; [reflexivity|].
  simpl. rewrite IH, app_nil_r. reflexivity.
Qed.

Lemma collect_add (t : IKTree) (made : list IKJoint) :
  collect (add t (nest made)) = collect t ++ made.
Proof.
  destruct t as [self kids]. simpl.
  rewrite List.flat_map_app, collect_nest, app_assoc. reflexivity.
Qed.

Lemma createFromURDF_on_made (c : IKChainObject) (robot : Object3D) :
  createFromURDF_on c robot =
    match createFromURDF robot with
    | Ok chain =>
        Ok (mkIKChainObject (add (_rootJoint c) (nest (tail (ikJoints chain))))
              (last (tail (ikJoints chain))) (_ikJoints c))
    | Throw e => Throw e
    end.
Proof.
  unfold createFromURDF_on, createFromURDF.
  destruct (_baseURDFJoint robot) as [[base|]|]; simpl; try reflexivity.
  destruct (_traverseURDFJoints base) as [made|]; reflexivity.
Qed.

Lemma createFromURDF_tail (robot : Object3D) (chain : IKChain) :
  createFromURDF robot = Ok chain ->
  ikJoints chain = IKJoint_new None :: tail (ikJoints chain) /\
  endEffector chain = Some (length (tail (ikJoints chain))) /\
  tail (ikJoints chain) <> [] /\
  Forall (fun j => exists d, j = IKJoint_new (Some d)) (tail (ikJoints chain)).
Proof.
  unfold createFromURDF, _baseURDFJoint.
  destruct (find_base (children robot)) as [[base|]|] eqn:Hb; simpl; try discriminate.
  destruct (find_base_followed _ _ Hb) as (_ & Hj & _).
  destruct (_traverseURDFJoints base) as [made|] eqn:Hm; simpl; [|discriminate].
  intros [= <-]. simpl.
  destruct (_traverseURDFJoints_made base made Hj Hm) as (Hall & Hlen & _).
  repeat split; [|exact Hall]. intros ->. simpl in Hlen. lia.
Qed.

(** X15: on a new chain that is built and then read, the getter
    [ikJoints] returns the root joint followed by the joints made, in
    order; the end effector is the last joint of that list; and a second
    read returns the same list, now cached. *)
Theorem ikJoints_after_build (robot : Object3D) (chain : IKChain) (e : nat) :
  createFromURDF robot = Ok chain ->
  endEffector chain = Some e ->
  exists c : IKChainObject,
    createFromURDF_on IKChainObject_new robot = Ok c /\
    (ikJoints_get c).1 = ikJoints chain /\
    _endEffector c = ikJoints chain !! e /\
    _endEffector c = last (ikJoints_get c).1 /\
    ikJoints_get (ikJoints_get c).2 = ((ikJoints_get c).1, (ikJoints_get c).2).
Proof.
  intros Hb He.
  destruct (createFromURDF_tail robot chain Hb) as (Hjs & He' & Hne & _).
  rewrite createFromURDF_on_made, Hb. eexists. split; [reflexivity|].
  assert (Hread : (ikJoints_get
                     (mkIKChainObject
                        (add (_rootJoint IKChainObject_new) (nest (tail (ikJoints chain))))
                        (last (tail (ikJoints chain))) (_ikJoints IKChainObject_new))).1
                  = ikJoints chain).
  { unfold ikJoints_get. simpl. rewrite collect_nest. symmetry. exact Hjs. }
  split; [exact Hread|].
  assert (Hlast : last (tail (ikJoints chain)) = last (ikJoints chain)).
  { rewrite Hjs at 2. destruct (tail (ikJoints chain)); [congruence | reflexivity]. }
  split; [|split].
  - simpl. rewrite Hlast, last_lookup. f_equal.
    assert (Some e = Some (length (tail (ikJoints chain)))) as [= ->] by congruence.
    rewrite Hjs at 1. reflexivity.
  - rewrite Hread. simpl. exact Hlast.
  - reflexivity.
Qed.

(** X16: the joint list is computed at the first read and never again.
    A chain whose list was read before [createFromURDF] still returns the
    old list after building; for a new chain that is the root joint alone,
    a list that does not contain the end effector. *)
Theorem ikJoints_read_before_build (c0 c : IKChainObject) (robot : Object3D) :
  createFromURDF_on (ikJoints_get c0).2 robot = Ok c ->
  (ikJoints_get c).1 = (ikJoints_get c0).1 /\
  (c0 = IKChainObject_new ->
     (ikJoints_get c).1 = [IKJoint_new None] /\
     exists j, _endEffector c = Some j /\ j ∉ (ikJoints_get c).1).
Proof.
  rewrite createFromURDF_on_made.
  destruct (createFromURDF robot) as [chain|] eqn:Hb; [|discriminate].
  intros [= <-].
  assert (Hcache : _ikJoints (ikJoints_get c0).2 = Some (ikJoints_get c0).1).
  { unfold ikJoints_get. destruct (_ikJoints c0) eqn:Hc; simpl; [exact Hc | reflexivity]. }
  assert (Hread : forall t ee,
             (ikJoints_get (mkIKChainObject t ee (_ikJoints (ikJoints_get c0).2))).1
             = (ikJoints_get c0).1).
  { intros t ee. unfold ikJoints_get at 1. simpl. rewrite Hcache. reflexivity. }
  split; [apply Hread|]. intros ->. rewrite Hread.
  split; [reflexivity|].
  destruct (createFromURDF_tail robot chain Hb) as (Hjs & _ & Hne & Hmade).
  simpl.
  destruct (last (tail (ikJoints chain))) as [j|] eqn:Hlast.
  - exists j. split; [reflexivity|].
    rewrite last_lookup in Hlast. apply list_elem_of_lookup_2 in Hlast.
    rewrite Forall_forall in Hmade. destruct (Hmade j Hlast) as [d ->].
    intros Hin. apply list_elem_of_singleton in Hin. discriminate Hin.
  - apply last_None in Hlast. contradiction.
Qed.

(** X17: building twice on the same chain keeps the joints of the first
    build under the root joint: a first read after the second build
    returns the root joint, the joints of the first build and the joints of
    the second, and the end effector is the last joint of the second. *)
Theorem createFromURDF_twice
    (robot1 robot2 : Object3D) (chain1 chain2 : IKChain) :
  createFromURDF robot1 = Ok chain1 ->
  createFromURDF robot2 = Ok chain2 ->
  exists c1 c2 : IKChainObject,
    createFromURDF_on IKChainObject_new robot1 = Ok c1 /\
    createFromURDF_on c1 robot2 = Ok c2 /\
    (ikJoints_get c2).1 = ikJoints chain1 ++ tail (ikJoints chain2) /\
    _endEffector c2 = last (ikJoints chain2).
Proof.
  intros Hb1 Hb2.
  destruct (createFromURDF_tail robot1 chain1 Hb1) as (Hjs1 & _ & _ & _).
  destruct (createFromURDF_tail robot2 chain2 Hb2) as (Hjs2 & _ & Hne2 & _).
  rewrite createFromURDF_on_made, Hb1. eexists. eexists. split; [reflexivity|].
  rewrite createFromURDF_on_made, Hb2. split; [reflexivity|].
  split.
  - unfold ikJoints_get. simpl. rewrite List.flat_map_app, !collect_nest.
    rewrite Hjs1 at 2. reflexivity.
  - simpl. rewrite Hjs2 at 2. destruct (tail (ikJoints chain2)); [congruence | reflexivity].
Qed.

End ChainObjectProperties.

Lemma ikJoints_after_build_witness :
  @createFromURDF Ref.three Scenes.arm = Ok Scenes.arm_chain /\
  exists c : IKChainObject,
    @createFromURDF_on Ref.three (@IKChainObject_new Ref.three) Scenes.arm = Ok c /\
    (ikJoints_get c).1 = Scenes.arm_joints.
Proof.
  assert (Hb : @createFromURDF Ref.three Scenes.arm = Ok Scenes.arm_chain)
    by (vm_compute; reflexivity).
  split; [exact Hb|].
  destruct (@ikJoints_after_build Ref.three Scenes.arm Scenes.arm_chain 3%nat Hb eq_refl)
    as (c & Hc & Hread & _).
  exists c. split; [exact Hc | exact Hread].
Defined.

Lemma ikJoints_read_before_build_witness :
  exists c : IKChainObject,
    @createFromURDF_on Ref.three (ikJoints_get (@IKChainObject_new Ref.three)).2 Scenes.arm
      = Ok c /\
    (ikJoints_get c).1 = [@IKJoint_new Ref.three None].
Proof.
  destruct (@createFromURDF_on Ref.three (ikJoints_get (@IKChainObject_new Ref.three)).2
              Scenes.arm) as [c|] eqn:Hc; [|vm_compute in Hc; discriminate Hc].
  exists c. split; [reflexivity|].
  destruct (@ikJoints_read_before_build Ref.three (@IKChainObject_new Ref.three) c
              Scenes.arm Hc) as (_ & Hnew).
  destruct (Hnew eq_refl) as (Hread & _). exact Hread.
Defined.

Lemma createFromURDF_twice_witness :
  exists c1 c2 : IKChainObject,
    @createFromURDF_on Ref.three (@IKChainObject_new Ref.three) Scenes.arm = Ok c1 /\
    @createFromURDF_on Ref.three c1 Scenes.forked = Ok c2 /\
    length (ikJoints_get c2).1 = 6%nat.
Proof.
  assert (Hb1 : @createFromURDF Ref.three Scenes.arm = Ok Scenes.arm_chain)
    by (vm_compute; reflexivity).
  destruct (@createFromURDF Ref.three Scenes.forked) as [chain2|] eqn:Hb2;
    [|vm_compute in Hb2; discriminate Hb2].
  destruct (@createFromURDF_twice Ref.three Scenes.arm Scenes.forked
              Scenes.arm_chain chain2 Hb1 Hb2) as (c1 & c2 & H1 & H2 & Hread & _).
  exists c1, c2. split; [exact H1|]. split; [exact H2|].
  rewrite Hread. vm_compute in Hb2. injection Hb2 as <-. reflexivity.
Defined.

(** ** Solving again, and the limit step once more *)

Section Again.
Context `{ThreeJS IKJoint}.

(** X18: a solve that stopped with the distance not above the tolerance
    (as it does whenever its counter ends at most at [maxIterations]) is
    final: solving again for the same target and configuration makes no
    pass and returns the same joints. *)
Theorem CCDIKSolver_converged_is_final
    (chain : IKChain) (target : Vector3) (config : IKConfig) (e : nat)
    (st : Scene) (it : Z) :
  endEffector chain = Some e ->
  CCDIKSolver chain target config = Ok (st, it) ->
  it <= maxIterations config ->
  Num.gt (calcEndEffectorTargetDistance e st) (tolerance config) = false /\
  CCDIKSolver (mkIKChain (joints st) (Some e)) (targetPos st) config = Ok (st, 0).
Proof.
  intros He Hrun Hit.
  assert (Hd : Num.gt (calcEndEffectorTargetDistance e st) (tolerance config) = false).
  { unfold CCDIKSolver in Hrun. rewrite He in Hrun.
    destruct (whileLoop_run e config (mkScene (ikJoints chain) target) 0)
      as (n & st' & Hloop & _ & _ & _ & Hstop).
    rewrite Hloop in Hrun. injection Hrun as <- <-.
    destruct Hstop as [Hstop | Hstop]; [exact Hstop | lia]. }
  split; [exact Hd|].
  destruct st as [js t].
  apply (CCDIKSolver_within_tolerance (mkIKChain js (Some e)) t config e eq_refl Hd).
Qed.

(** X19: the limit step writes nothing but the rotation about the axis
    of the joint at one of the two bounds of its limit: it leaves the joint
    as it is, or sets its orientation to the axis-angle rotation at [lower],
    or to the one at [upper]. *)
Theorem clampToLimit_writes_bounds (j : IKJoint) :
  clampToLimit j = j \/
  clampToLimit j = set_quaternion (setFromAxisAngle (axis j) (lower (limit j))) j \/
  clampToLimit j = set_quaternion (setFromAxisAngle (axis j) (upper (limit j))) j.
Proof.
  rewrite clampToLimit_unfold. unfold clampIKJointRotationAngle.
  destruct (Num.lt _ _); [right; left; reflexivity|].
  destruct (Num.gt _ _); [right; right; reflexivity | left; reflexivity].
Qed.

(** X20: a joint whose axis has no truthy coordinate has the empty axis
    name; its angle is NaN and the limit step never changes it (given what
    ECMAScript fixes of [Math.asin]). *)
Theorem degenerate_axis_never_clamped (j : IKJoint) :
  asin_domain ->
  truthy (vx (axis j)) = false ->
  truthy (vy (axis j)) = false ->
  truthy (vz (axis j)) = false ->
  axisName j = None /\
  getIKJointRotationAngle j = Num.NaN /\
  clampToLimit j = j.
Proof.
  intros Hasin Hx Hy Hz.
  assert (Hname : axisName j = None).
  { unfold axisName, entries. simpl. rewrite Hx, Hy, Hz. reflexivity. }
  assert (Ha : getIKJointRotationAngle j = Num.NaN).
  { unfold getIKJointRotationAngle, angleRatio. rewrite Hname.
    rewrite (Hasin Num.NaN) by (left; reflexivity). reflexivity. }
  split; [exact Hname|]. split; [exact Ha | exact (clampToLimit_nan j Ha)].
Qed.

End Again.

Lemma CCDIKSolver_converged_is_final_witness :
  exists (st : Scene) (it : Z),
    @CCDIKSolver Ref.three Scenes.arm_chain (Scenes.vec 1 1 0) (Scenes.config 1 3)
      = Ok (st, it) /\
    it <= 3 /\
    @CCDIKSolver Ref.three (mkIKChain (joints st) (Some 3%nat)) (targetPos st)
      (Scenes.config 1 3) = Ok (st, 0).
Proof.
  destruct (@CCDIKSolver Ref.three Scenes.arm_chain (Scenes.vec 1 1 0) (Scenes.config 1 3))
    as [[st it]|] eqn:Hrun; [|vm_compute in Hrun; discriminate Hrun].
  assert (Hit : it <= 3) by (vm_compute in Hrun; injection Hrun as _ <-; lia).
  exists st, it. split; [reflexivity|]. split; [exact Hit|].
  exact (proj2 (@CCDIKSolver_converged_is_final Ref.three Scenes.arm_chain
                  (Scenes.vec 1 1 0) (Scenes.config 1 3) 3%nat st it eq_refl Hrun Hit)).
Defined.

Lemma degenerate_axis_never_clamped_witness :
  @asin_domain Ref.three /\
  axis (@IKJoint_new Ref.three
          (Some (Scenes.revolute (Scenes.vec 1 0 0) (Scenes.vec 0 0 0) (-3) 3)))
    = Scenes.vec 0 0 0 /\
  @clampToLimit Ref.three
    (@IKJoint_new Ref.three
       (Some (Scenes.revolute (Scenes.vec 1 0 0) (Scenes.vec 0 0 0) (-3) 3)))
  = @IKJoint_new Ref.three
      (Some (Scenes.revolute (Scenes.vec 1 0 0) (Scenes.vec 0 0 0) (-3) 3)).
Proof.
  split; [exact Ref_asin_domain|]. split; [reflexivity|].
  exact (proj2 (proj2 (@degenerate_axis_never_clamped Ref.three
              (@IKJoint_new Ref.three
                 (Some (Scenes.revolute (Scenes.vec 1 0 0) (Scenes.vec 0 0 0) (-3) 3)))
              Ref_asin_domain eq_refl eq_refl eq_refl))).
Defined.

(** ** The base joint and the errors of a build *)

Section BaseJoint.
Context `{ThreeJS IKJoint}.

Lemma find_base_prefix (cs : list Object3D) (base : Object3D) :
  find_base cs = Ok (Some base) ->
  exists before after,
    cs = before ++ base :: after /\ Forall passed_over before.
Proof.
  induction cs as [|c cs IH]; simpl; [discriminate|].
  destruct (isURDFJoint c) eqn:Hc.
  - destruct (_nextURDFJoint c) as [[n|]|] eqn:Hn; simpl; [| |discriminate].
    + intros [= ->]. exists [], cs. split; [reflexivity | constructor].
    + intros Hb. destruct (IH Hb) as (before & after & -> & Hall).
      exists (c :: before), after. split; [reflexivity|].
      constructor; [right; exact Hn | exact Hall].
  - intros Hb. destruct (IH Hb) as (before & after & -> & Hall).
    exists (c :: before), after. split; [reflexivity|].
    constructor; [left; exact Hc | exact Hall].
Qed.

(** X21: the base joint is the first child of the robot that is a URDF
    joint followed by a further joint: every child before it is not a URDF
    joint, or is one that no joint follows. *)
Theorem _baseURDFJoint_first (robot base : Object3D) :
  _baseURDFJoint robot = Ok (Some base) ->
  isURDFJoint base = true /\
  (exists n, _nextURDFJoint base = Ok (Some n) /\ isURDFJoint n = true) /\
  exists before after,
    children robot = before ++ base :: after /\
    Forall (fun c => isURDFJoint c = false \/ _nextURDFJoint c = Ok None) before.
Proof.
  unfold _baseURDFJoint. intros Hb.
  destruct (find_base_followed _ _ Hb) as (_ & Hj & n & Hn).
  split; [exact Hj|]. split.
  - exists n. split; [exact Hn|]. apply (_nextURDFJoint_found base n Hn).
  - exact (find_base_prefix _ _ Hb).
Qed.

Lemma find_base_throws (before after : list Object3D) (c : Object3D) :
  Forall passed_over before ->
  isURDFJoint c = true -> children c = [] ->
  find_base (before ++ c :: after) = Throw TypeError.
Proof.
  intros Hall Hc Hcs. induction Hall as [|b before Hb Hall IH]; simpl.
  - rewrite Hc. unfold _nextURDFJoint. rewrite Hcs. reflexivity.
  - destruct Hb as [Hb | Hb].
    + rewrite Hb. exact IH.
    + destruct (isURDFJoint b); [rewrite Hb; simpl|]; exact IH.
Qed.

(** X22: a URDF joint without any child, met among the children of the
    robot before a base joint is found, makes [createFromURDF] throw a
    TypeError. *)
Theorem createFromURDF_childless_joint
    (robot : Object3D) (before after : list Object3D) (c : Object3D) :
  children robot = before ++ c :: after ->
  Forall (fun b => isURDFJoint b = false \/ _nextURDFJoint b = Ok None) before ->
  isURDFJoint c = true -> children c = [] ->
  createFromURDF robot = Throw TypeError.
Proof.
  intros Hcs Hall Hc Hnone. unfold createFromURDF, _baseURDFJoint.
  rewrite Hcs, (find_base_throws before after c Hall Hc Hnone). reflexivity.
Qed.

(** X23: the traversal throws a TypeError as soon as the joints it
    follows lead to a joint without any child. *)
Theorem _traverseURDFJoints_childless (u n : Object3D) :
  rtc (fun a b => _nextURDFJoint a = Ok (Some b)) u n ->
  children n = [] ->
  _traverseURDFJoints u = Throw TypeError.
Proof.
  intros Hpath Hnone. induction Hpath as [n|a b n Hab Hpath IH].
  - rewrite _traverseURDFJoints_eq. unfold _nextURDFJoint. rewrite Hnone. reflexivity.
  - rewrite _traverseURDFJoints_eq, Hab, (IH Hnone). reflexivity.
Qed.

End BaseJoint.

Lemma _baseURDFJoint_first_witness :
  exists base : Object3D,
    _baseURDFJoint Scenes.arm = Ok (Some base) /\
    isURDFJoint base = true /\
    exists before after, children Scenes.arm = before ++ base :: after.
Proof.
  destruct (_baseURDFJoint Scenes.arm) as [[base|]|] eqn:Hb;
    [|vm_compute in Hb; discriminate Hb|vm_compute in Hb; discriminate Hb].
  exists base. split; [reflexivity|].
  destruct (_baseURDFJoint_first Scenes.arm base Hb)
    as (Hj & _ & before & after & Hcs & _).
  split; [exact Hj|]. exists before, after. exact Hcs.
Defined.

Lemma createFromURDF_childless_joint_witness :
  @createFromURDF Ref.three
    (Scenes.link [Scenes.link [];
                  Node (Some (Scenes.fixed (Scenes.vec 0 0 0))) [];
                  Scenes.joint (Scenes.fixed (Scenes.vec 0 0 0)) (Scenes.link [])])
    = Throw TypeError.
Proof.
  apply (@createFromURDF_childless_joint Ref.three _ [Scenes.link []]
           [Scenes.joint (Scenes.fixed (Scenes.vec 0 0 0)) (Scenes.link [])]
           (Node (Some (Scenes.fixed (Scenes.vec 0 0 0))) [])).
  - reflexivity.
  - constructor; [left; reflexivity | constructor].
  - reflexivity.
  - reflexivity.
Defined.

Lemma _traverseURDFJoints_childless_witness :
  @_traverseURDFJoints Ref.three
    (Scenes.joint (Scenes.fixed (Scenes.vec 0 0 0))
       (Scenes.link [Node (Some (Scenes.fixed (Scenes.vec 1 0 0))) []]))
    = Throw TypeError.
Proof.
  apply (@_traverseURDFJoints_childless Ref.three _
           (Node (Some (Scenes.fixed (Scenes.vec 1 0 0))) [])).
  - eapply rtc_l; [reflexivity | apply rtc_refl].
  - reflexivity.
Defined.
